(** * Analisador lexico para C: modelo e propriedades

    Shallow embedding of [Compiladores/analisador_lexico_c.py].

    A source text is a [list ascii]; each element stands for one code point
    in the range 0..255.  On that range Python's [\d] is the ten digits and
    [\s] (as well as the set removed by [str.strip]) is the set given by
    [eh_espaco] below.

    The master pattern of the scanner is an ordered alternation of named
    groups that the [re] module explores by backtracking.  The module [Re]
    gives that exploration for the operators the table uses: the list of
    remainders that a pattern can leave, in the order in which backtracking
    reaches them.  The first element is the match [re] reports. *)

From Stdlib Require Import Ascii String List Arith Bool Lia.
Import ListNotations.

Definition txt (s : string) : list ascii := list_ascii_of_string s.

Definition nl : ascii := "010".
Definition tab : ascii := "009".
Definition aspas : ascii := "034".
Definition barra_inv : ascii := "092".

Definition cod (c : ascii) : nat := nat_of_ascii c.

(** Whitespace as [\s] and [str.strip] see it, for code points below 256. *)
Definition eh_espaco (c : ascii) : bool :=
  let n := cod c in
  ((9 <=? n) && (n <=? 13)) || ((28 <=? n) && (n <=? 32))
  || (n =? 133) || (n =? 160).

Module Re.

(** What stands between the brackets of a set: [x] or [a-b]. *)
Inductive item : Type :=
| Unico (c : ascii)
| Faixa (a b : ascii).

(** Patterns of one character: [x] or [\x], [.], [\d], [\s], [[...]] and
    [[^...]]. *)
Inductive classe : Type :=
| Literal (c : ascii)
| Qualquer
| Digito
| Branco
| Conjunto (itens : list item)
| Complemento (itens : list item).

(** [ab], [a|b], [a*], [a*?], [a+], [a?] and the groups [(a)] and
    [(?:a)], which match as [a] does. *)
Inductive regex : Type :=
| Eps
| Um (k : classe)
| Seq (a b : regex)
| Alt (a b : regex)
| Estrela (a : regex)
| EstrelaPreg (a : regex)
| Mais (a : regex)
| Opc (a : regex)
| Grupo (a : regex).

Definition no_item (i : item) (c : ascii) : bool :=
  match i with
  | Unico a => Ascii.eqb c a
  | Faixa a b => (cod a <=? cod c) && (cod c <=? cod b)
  end.

Definition pertence (k : classe) (c : ascii) : bool :=
  match k with
  | Literal a => Ascii.eqb c a
  | Qualquer => negb (Ascii.eqb c nl)
  | Digito => (48 <=? cod c) && (cod c <=? 57)
  | Branco => eh_espaco c
  | Conjunto its => existsb (fun i => no_item i c) its
  | Complemento its => negb (existsb (fun i => no_item i c) its)
  end.

(** Repetition of [passo] from [s]: a greedy loop tries one more
    iteration before stopping, a lazy one stops first.  An iteration that
    consumes nothing is not repeated. *)
Fixpoint repetir (passo : list ascii -> list (list ascii)) (guloso : bool)
         (n : nat) (s : list ascii) : list (list ascii) :=
  match n with
  | 0 => [s]
  | S n' =>
      let mais :=
        flat_map (fun s' => if length s' <? length s
                            then repetir passo guloso n' s' else [])
                 (passo s) in
      if guloso then mais ++ [s] else s :: mais
  end.

(** Remainders left by the matches of [r] at the start of [s], in
    backtracking order. *)
Fixpoint restos (r : regex) (s : list ascii) : list (list ascii) :=
  match r with
  | Eps => [s]
  | Um k =>
      match s with
      | c :: s' => if pertence k c then [s'] else []
      | [] => []
      end
  | Seq a b => flat_map (restos b) (restos a s)
  | Alt a b => restos a s ++ restos b s
  | Estrela a => repetir (restos a) true (length s) s
  | EstrelaPreg a => repetir (restos a) false (length s) s
  | Mais a =>
      flat_map (fun s' => repetir (restos a) true (length s') s')
               (restos a s)
  | Opc a => restos a s ++ [s]
  | Grupo a => restos a s
  end.

(** Can [r] match the empty text? *)
Fixpoint anulavel (r : regex) : bool :=
  match r with
  | Eps => true
  | Um _ => false
  | Seq a b => anulavel a && anulavel b
  | Alt a b => anulavel a || anulavel b
  | Estrela _ | EstrelaPreg _ | Opc _ => true
  | Mais a => anulavel a
  | Grupo a => anulavel a
  end.

(** Can a non-empty match of [r] begin with [c]?  (An over-approximation.) *)
Fixpoint inicia (r : regex) (c : ascii) : bool :=
  match r with
  | Eps => false
  | Um k => pertence k c
  | Seq a b => inicia a c || (anulavel a && inicia b c)
  | Alt a b => inicia a c || inicia b c
  | Estrela a | EstrelaPreg a | Mais a | Opc a | Grupo a => inicia a c
  end.

Definition car (c : ascii) : regex := Um (Literal c).

(** A run of literal characters. *)
Fixpoint lit (s : list ascii) : regex :=
  match s with
  | [] => Eps
  | [c] => car c
  | c :: s' => Seq (car c) (lit s')
  end.

Definition str (s : string) : regex := lit (txt s).

End Re.
Import Re.

Declare Scope re_scope.
Delimit Scope re_scope with re.
Bind Scope re_scope with regex.
Infix ">>" := Seq (at level 41, right associativity) : re_scope.
Infix "<|>" := Alt (at level 42, right associativity) : re_scope.

(** ** Palavras reservadas do C *)

Definition PALAVRAS_RESERVADAS : list (list ascii) :=
  map txt
  [ "auto";"break";"case";"char";"const";"continue";"default";"do";"double";
    "else";"enum";"extern";"float";"for";"goto";"if";"inline";"int";"long";
    "register";"restrict";"return";"short";"signed";"sizeof";"static";"struct";
    "switch";"typedef";"union";"unsigned";"void";"volatile";"while";"_Bool";
    "_Complex";"_Imaginary" ]%string.

Definition texto_eqb (a b : list ascii) : bool :=
  if list_eq_dec ascii_dec a b then true else false.

(** [texto in PALAVRAS_RESERVADAS] *)
Definition reservada (texto : list ascii) : bool :=
  existsb (texto_eqb texto) PALAVRAS_RESERVADAS.

(** ** Nomes de grupo e tipos de token *)

Inductive Nome : Type :=
| ESPACO | NOVA_LINHA | COMENTARIO_ML | COMENTARIO_SL | PREPROCESSADOR
| STRING | CHAR | FLOAT | INTEIRO | ID | OPERADOR | OP_SIMBOLO
| PONTO_VIRGULA | VIRGULA | PAR_ESQ | PAR_DIR | CHAVE_ESQ | CHAVE_DIR
| COLCH_ESQ | COLCH_DIR | PONTO | INVALIDO
| PALAVRA_CHAVE.

Module Token.
Record t : Type := mk
  { tipo : Nome; valor : list ascii; linha : nat; coluna : nat }.
End Token.

(** The exception carries the position; its message is formatted from the
    offending text, which is kept here in [texto]. *)
Module ErroLexico.
Record t : Type := mk
  { texto : list ascii; linha : nat; coluna : nat }.
End ErroLexico.

(** The mutable fields of an [AnalisadorLexico] instance. *)
Record Cursor : Type := mkCursor
  { pos : nat; linha : nat; coluna : nat }.

Definition cursor_inicial : Cursor := mkCursor 0 1 1.

(** ** A tabela de expressoes regulares *)

Definition letras : list item := [Faixa "A" "Z"; Faixa "a" "z"; Unico "_"].
Definition letras_digitos : list item :=
  [Faixa "A" "Z"; Faixa "a" "z"; Faixa "0" "9"; Unico "_"].

Definition especificacao : list (Nome * regex) :=
  [ (ESPACO, Mais (Um (Conjunto [Unico " "; Unico tab])));
    (NOVA_LINHA, car nl);
    (COMENTARIO_ML,
       str "/*" >> EstrelaPreg (Um Qualquer <|> car nl) >> str "*/");
    (COMENTARIO_SL, str "//" >> Estrela (Um (Complemento [Unico nl])));
    (PREPROCESSADOR,
       car "#" >> Estrela (Um Branco) >> Um (Conjunto letras)
       >> Estrela (Um (Conjunto letras_digitos))
       >> Estrela (Um (Complemento [Unico nl])));
    (STRING,
       car aspas
       >> Estrela (Grupo (car barra_inv >> Um Qualquer
                          <|> Um (Complemento [Unico aspas; Unico barra_inv])))
       >> car aspas);
    (CHAR,
       car "'"
       >> Grupo (car barra_inv >> Um Qualquer
                 <|> Um (Complemento [Unico "'"; Unico barra_inv]))
       >> car "'");
    (FLOAT,
       (Mais (Um Digito) >> car "." >> Estrela (Um Digito)
        <|> car "." >> Mais (Um Digito))
       >> Opc (Um (Conjunto [Unico "e"; Unico "E"])
               >> Opc (Um (Conjunto [Unico "+"; Unico "-"]))
               >> Mais (Um Digito))
       >> Opc (Um (Conjunto [Unico "f"; Unico "F"; Unico "l"; Unico "L"])));
    (INTEIRO,
       Mais (Um Digito)
       >> Estrela (Um (Conjunto [Unico "u"; Unico "U"; Unico "l"; Unico "L"])));
    (ID, Um (Conjunto letras) >> Estrela (Um (Conjunto letras_digitos)));
    (OPERADOR,
       Grupo (str "++" <|> str "--" <|> str "==" <|> str "!=" <|> str ">="
              <|> str "<=" <|> str "->" <|> str "<<" <|> str ">>" <|> str "&&"
              <|> str "||" <|> str "+=" <|> str "-=" <|> str "*=" <|> str "/="
              <|> str "%=" <|> str "&=" <|> str "|=" <|> str "^="
              <|> str "<<=" <|> str ">>="));
    (OP_SIMBOLO,
       Um (Conjunto [Unico "+"; Unico "-"; Unico "*"; Unico "/"; Unico "%";
                     Unico "&"; Unico "|"; Unico "^"; Unico "~"; Unico "!";
                     Unico "<"; Unico ">"; Unico "="; Unico "?"; Unico ":"]));
    (PONTO_VIRGULA, car ";");
    (VIRGULA, car ",");
    (PAR_ESQ, car "(");
    (PAR_DIR, car ")");
    (CHAVE_ESQ, car "{");
    (CHAVE_DIR, car "}");
    (COLCH_ESQ, car "[");
    (COLCH_DIR, car "]");
    (PONTO, car ".");
    (INVALIDO, Um Qualquer) ]%re.

(** The alternation ["|".join(partes)] as one pattern. *)
Definition alternativas (tab : list (Nome * regex)) : regex :=
  fold_right (fun p r => Alt (Grupo (snd p)) r) (Um (Conjunto [])) tab.

(** One attempt of the master pattern at the start of [s]: the first
    alternative, in table order, that matches; [m.lastgroup] is its name,
    [m.group(tipo)] the text it consumed. *)
Fixpoint casar_em (tab : list (Nome * regex)) (s : list ascii)
  : option (Nome * list ascii * list ascii) :=
  match tab with
  | [] => None
  | (nome, r) :: tab' =>
      match restos r s with
      | s' :: _ => Some (nome, firstn (length s - length s') s, s')
      | [] => casar_em tab' s
      end
  end.

Definition regex_mestre (s : list ascii) := casar_em especificacao s.

(** [finditer]: the next match at or after the current position. *)
Fixpoint procurar (s : list ascii)
  : option (Nome * list ascii * list ascii) :=
  match regex_mestre s with
  | Some m => Some m
  | None =>
      match s with
      | [] => None
      | _ :: s' => procurar s'
      end
  end.

(** ** [_avancar] *)

(** [texto.split(sep)] for a one-character separator. *)
Fixpoint split (sep : ascii) (s : list ascii) : list (list ascii) :=
  match s with
  | [] => [[]]
  | c :: s' =>
      if Ascii.eqb c sep then [] :: split sep s'
      else match split sep s' with
           | l :: ls => (c :: l) :: ls
           | [] => [[c]]
           end
  end.

Definition _avancar (c : Cursor) (texto : list ascii) : Cursor :=
  let linhas := split nl texto in
  if length linhas =? 1 then
    mkCursor (pos c + length texto) (linha c) (coluna c + length texto)
  else
    mkCursor (pos c + length texto)
             (linha c + (length linhas - 1))
             (length (last linhas []) + 1).

(** ** [str.strip] *)

Fixpoint lstrip (s : list ascii) : list ascii :=
  match s with
  | c :: s' => if eh_espaco c then lstrip s' else s
  | [] => []
  end.

Definition rstrip (s : list ascii) : list ascii := rev (lstrip (rev s)).
Definition strip (s : list ascii) : list ascii := rstrip (lstrip s).

(** ** [analisar] *)

Inductive Acao : Type :=
| Continua
| Produz (token : Token.t)
| Levanta (e : ErroLexico.t).

(** The body of the loop for one match.  [PALAVRA_CHAVE] names no group
    of the table; a name that no branch of the chain tests falls through
    it. *)
Definition tratar (tipo : Nome) (texto : list ascii) (c : Cursor)
  : Cursor * Acao :=
  match tipo with
  | ESPACO => (_avancar c texto, Continua)
  | NOVA_LINHA => (_avancar c texto, Continua)
  | COMENTARIO_ML | COMENTARIO_SL => (_avancar c texto, Continua)
  | PREPROCESSADOR =>
      let token := Token.mk PREPROCESSADOR (strip texto) (linha c) (coluna c) in
      (_avancar c texto, Produz token)
  | STRING =>
      let token := Token.mk STRING texto (linha c) (coluna c) in
      (_avancar c texto, Produz token)
  | CHAR =>
      let token := Token.mk CHAR texto (linha c) (coluna c) in
      (_avancar c texto, Produz token)
  | FLOAT =>
      let token := Token.mk FLOAT texto (linha c) (coluna c) in
      (_avancar c texto, Produz token)
  | INTEIRO =>
      let token := Token.mk INTEIRO texto (linha c) (coluna c) in
      (_avancar c texto, Produz token)
  | ID =>
      let tipo_token := if reservada texto then PALAVRA_CHAVE else ID in
      let token := Token.mk tipo_token texto (linha c) (coluna c) in
      (_avancar c texto, Produz token)
  | OPERADOR | OP_SIMBOLO =>
      let token := Token.mk OPERADOR texto (linha c) (coluna c) in
      (_avancar c texto, Produz token)
  | PONTO_VIRGULA | VIRGULA | PAR_ESQ | PAR_DIR | CHAVE_ESQ | CHAVE_DIR
  | COLCH_ESQ | COLCH_DIR | PONTO =>
      let token := Token.mk tipo texto (linha c) (coluna c) in
      (_avancar c texto, Produz token)
  | INVALIDO =>
      let c' := _avancar c texto in
      (c', Levanta (ErroLexico.mk texto (linha c') (coluna c')))
  | PALAVRA_CHAVE => (c, Continua)
  end.

(** One iteration of the loop as it is observed: the group that matched,
    the matched text and what the body did with it. *)
Record Passo : Type := mkPasso
  { grupo : Nome; casado : list ascii; acao : Acao }.

Inductive Desfecho : Type :=
| Fim
| Erro (e : ErroLexico.t)
| SemCombustivel.

Fixpoint laco (n : nat) (c : Cursor) (s : list ascii)
  : list Passo * Desfecho :=
  match n with
  | 0 => ([], SemCombustivel)
  | S n' =>
      match procurar s with
      | None => ([], Fim)
      | Some (tipo, texto, resto) =>
          let '(c', a) := tratar tipo texto c in
          match a with
          | Levanta e => ([mkPasso tipo texto a], Erro e)
          | _ =>
              let '(ps, d) := laco n' c' resto in
              (mkPasso tipo texto a :: ps, d)
          end
      end
  end.

(** The tokens a trace yields, in order. *)
Fixpoint produzidos (ps : list Passo) : list Token.t :=
  match ps with
  | [] => []
  | p :: ps' =>
      match acao p with
      | Produz token => token :: produzidos ps'
      | _ => produzidos ps'
      end
  end.

(** The run of the generator from a cursor: its trace and how it ends. *)
Definition analisar_de (c : Cursor) (s : list ascii) : list Passo * Desfecho :=
  laco (S (length s)) c s.

(** [AnalisadorLexico(codigo).analisar()]: the tokens yielded, then the end
    of the iteration or the exception. *)
Definition analisar (codigo : list ascii) : list Token.t * Desfecho :=
  let '(ps, d) := analisar_de cursor_inicial codigo in (produzidos ps, d).

Inductive Resultado : Type :=
| Lista (tokens : list Token.t)
| Excecao (e : ErroLexico.t)
| Indefinido.

(** [analisar_codigo]: [list(...)] of the generator. *)
Definition analisar_codigo (codigo : list ascii) : Resultado :=
  match analisar codigo with
  | (tokens, Fim) => Lista tokens
  | (_, Erro e) => Excecao e
  | (_, SemCombustivel) => Indefinido
  end.

(** ** Vocabulary of the statements *)

Definition letra (c : ascii) : bool :=
  ((65 <=? cod c) && (cod c <=? 90)) || ((97 <=? cod c) && (cod c <=? 122)).
Definition digito (c : ascii) : bool := (48 <=? cod c) && (cod c <=? 57).
Definition sublinhado (c : ascii) : bool := Ascii.eqb c "_".

(** All the code points of the model. *)
Definition todos_ascii : list ascii := map ascii_of_nat (seq 0 256).

(** A letter or underscore followed by letters, digits or underscores. *)
Definition identificador (w : list ascii) : bool :=
  match w with
  | c :: w' =>
      (letra c || sublinhado c)
      && forallb (fun d => letra d || digito d || sublinhado d) w'
  | [] => false
  end.

(** Does the text go on with a character an identifier could take? *)
Definition segue_identificador (s : list ascii) : bool :=
  match s with
  | d :: _ => letra d || digito d || sublinhado d
  | [] => false
  end.

(** The repeated part of the pattern [STRING]. *)
Definition corpo_string : regex :=
  Grupo (car barra_inv >> Um Qualquer
         <|> Um (Complemento [Unico aspas; Unico barra_inv]))%re.

(** Is there a double quote in [s] that no backslash escapes?  A backslash
    escapes the character after it. *)
Fixpoint tem_aspas_livre (s : list ascii) : bool :=
  match s with
  | [] => false
  | c :: t =>
      if Ascii.eqb c aspas then true
      else if Ascii.eqb c barra_inv then
        match t with
        | [] => false
        | _ :: t' => tem_aspas_livre t'
        end
      else tem_aspas_livre t
  end.

Fixpoint comeca_com (p s : list ascii) : bool :=
  match p, s with
  | [], _ => true
  | a :: p', b :: s' => Ascii.eqb a b && comeca_com p' s'
  | _ :: _, [] => false
  end.

(** Does [p] occur somewhere in [s]? *)
Fixpoint ocorre (p s : list ascii) : bool :=
  comeca_com p s
  || match s with
     | [] => false
     | _ :: s' => ocorre p s'
     end.

(** What one iteration contributes to the text put together from the
    output: the text of the token it yields, or the run it consumes without
    yielding one. *)
Definition parcela (p : Passo) : list ascii :=
  match acao p with
  | Produz token => Token.valor token
  | _ => casado p
  end.

(** The same, with the matched text of a directive for the text of its
    token. *)
Definition parcela_casada (p : Passo) : list ascii :=
  match acao p, grupo p with
  | Produz token, PREPROCESSADOR => casado p
  | Produz token, _ => Token.valor token
  | _, _ => casado p
  end.

Definition reconstruir (ps : list Passo) : list ascii :=
  concat (map parcela ps).

Definition reconstruir_casado (ps : list Passo) : list ascii :=
  concat (map parcela_casada ps).

(** ** Vocabulary of the further properties *)

(** The cursor after one more character. *)
Definition avancar_caractere (c : Cursor) (x : ascii) : Cursor :=
  if Ascii.eqb x nl then mkCursor (S (pos c)) (S (linha c)) 1
  else mkCursor (S (pos c)) (linha c) (S (coluna c)).

(** Space, tab or newline. *)
Definition em_branco (c : ascii) : bool :=
  Ascii.eqb c " " || Ascii.eqb c tab || Ascii.eqb c nl.

Definition simbolo (c : ascii) : bool :=
  existsb (Ascii.eqb c) (txt "+-*/%&|^~!<>=?:").

Definition pontuacao (c : ascii) : bool :=
  existsb (Ascii.eqb c) (txt ";,(){}[].").

(** The characters that begin a match of some group other than the
    fallback wherever they stand. *)
Definition caractere_aceito (c : ascii) : bool :=
  em_branco c || letra c || digito c || sublinhado c
  || simbolo c || pontuacao c.

(** Does [r] match at the start of every text? *)
Fixpoint total (r : regex) : bool :=
  match r with
  | Eps | Estrela _ | EstrelaPreg _ | Opc _ => true
  | Um _ => false
  | Seq a b => total a && total b
  | Alt a b => total a || total b
  | Mais a | Grupo a => total a
  end.

(** Does [r] match at the start of every text that begins with [c]?
    (A sufficient test.) *)
Fixpoint aceita (r : regex) (c : ascii) : bool :=
  match r with
  | Eps | Estrela _ | EstrelaPreg _ | Opc _ => true
  | Um k => pertence k c
  | Seq a b => aceita a c && total b
  | Alt a b => aceita a c || aceita b c
  | Mais a | Grupo a => aceita a c
  end.

(** The categories a yielded token can have. *)
Definition categoria_de_saida (tipo : Nome) : bool :=
  match tipo with
  | PREPROCESSADOR | STRING | CHAR | FLOAT | INTEIRO | PALAVRA_CHAVE | ID
  | OPERADOR | PONTO_VIRGULA | VIRGULA | PAR_ESQ | PAR_DIR | CHAVE_ESQ
  | CHAVE_DIR | COLCH_ESQ | COLCH_DIR | PONTO => true
  | _ => false
  end.

(** The inside of a string literal: characters other than the quote and
    the backslash, and backslashes followed by a character other than the
    newline. *)
Fixpoint corpo_valido (s : list ascii) : bool :=
  match s with
  | [] => true
  | c :: t =>
      if Ascii.eqb c aspas then false
      else if Ascii.eqb c barra_inv then
        match t with
        | [] => false
        | d :: t' => negb (Ascii.eqb d nl) && corpo_valido t'
        end
      else corpo_valido t
  end.

(** The repeated part of the pattern [COMENTARIO_ML]. *)
Definition corpo_comentario : regex := (Um Qualquer <|> car nl)%re.

(** Space or tab. *)
Definition horizontal (c : ascii) : bool :=
  Ascii.eqb c " " || Ascii.eqb c tab.



(** * Properties of the matcher *)

Section ListaAux.
Context {A B : Type}.

Lemma flat_map_vazio (f : A -> list B) (l : list A) :
  (forall x, In x l -> f x = []) -> flat_map f l = [].
Proof.
  induction l as [|x l IH]; intros H; simpl; [reflexivity|].
  rewrite (H x (or_introl eq_refl)), IH; [reflexivity|].
  intros y Hy. apply H. now right.
Qed.

Lemma firstn_exato (m s : list A) :
  firstn (length (m ++ s) - length s) (m ++ s) = m.
Proof.
  rewrite length_app.
  replace (length m + length s - length s) with (length m + 0) by lia.
  rewrite firstn_app_2. simpl. apply app_nil_r.
Qed.
End ListaAux.

(** Every code point is [ascii_of_nat n] for some [n < 256], so a boolean
    property of characters is decided by running it on all of them. *)
Lemma para_todo_ascii (f : ascii -> bool) :
  forallb f todos_ascii = true -> forall c, f c = true.
Proof.
  intros H c. rewrite forallb_forall in H. apply H.
  unfold todos_ascii. rewrite <- (ascii_nat_embedding c).
  apply in_map, in_seq. pose proof (nat_ascii_bounded c). lia.
Qed.

Ltac por_caractere := apply para_todo_ascii; vm_compute; reflexivity.

Module ReFacts.

Lemma repetir_sufixo passo g :
  (forall s s', In s' (passo s) -> exists m, s = m ++ s') ->
  forall n s s', In s' (repetir passo g n s) -> exists m, s = m ++ s'.
Proof.
  intros Hp n. induction n as [|n IH]; intros s s' Hin; simpl in Hin.
  - destruct Hin as [<-|[]]. now exists [].
  - assert (Hmais : In s' (flat_map
              (fun s1 => if length s1 <? length s
                         then repetir passo g n s1 else []) (passo s))
            -> exists m, s = m ++ s').
    { intros H. apply in_flat_map in H. destruct H as (s1 & H1 & H2).
      destruct (length s1 <? length s); [|destruct H2].
      destruct (Hp _ _ H1) as (m1 & ->).
      destruct (IH _ _ H2) as (m2 & ->).
      exists (m1 ++ m2). now rewrite app_assoc. }
    destruct g.
    + apply in_app_or in Hin. destruct Hin as [H|[<-|[]]]; auto.
      now exists [].
    + destruct Hin as [<-|H]; auto. now exists [].
Qed.

(** A match consumes a prefix: what is left is a suffix of the input. *)
Lemma restos_sufixo r :
  forall s s', In s' (restos r s) -> exists m, s = m ++ s'.
Proof.
  induction r as [|k|a IHa b IHb|a IHa b IHb|a IHa|a IHa|a IHa|a IHa|a IHa];
    intros s s' Hin; simpl in Hin.
  - destruct Hin as [<-|[]]. now exists [].
  - destruct s as [|c s]; [destruct Hin|].
    destruct (pertence k c); [|destruct Hin].
    destruct Hin as [<-|[]]. now exists [c].
  - apply in_flat_map in Hin. destruct Hin as (s1 & H1 & H2).
    destruct (IHa _ _ H1) as (m1 & ->). destruct (IHb _ _ H2) as (m2 & ->).
    exists (m1 ++ m2). now rewrite app_assoc.
  - apply in_app_or in Hin. destruct Hin; eauto.
  - eapply repetir_sufixo; eauto.
  - eapply repetir_sufixo; eauto.
  - apply in_flat_map in Hin. destruct Hin as (s1 & H1 & H2).
    destruct (IHa _ _ H1) as (m1 & ->).
    destruct (repetir_sufixo _ _ IHa _ _ _ H2) as (m2 & ->).
    exists (m1 ++ m2). now rewrite app_assoc.
  - apply in_app_or in Hin. destruct Hin as [H|[<-|[]]]; eauto.
    now exists [].
  - eauto.
Qed.

Lemma restos_comprimento r s s' :
  In s' (restos r s) -> length s' <= length s.
Proof.
  intros H. destruct (restos_sufixo _ _ _ H) as (m & ->).
  rewrite length_app. lia.
Qed.

(** A pattern that cannot match the empty text always consumes something. *)
Lemma restos_progresso r :
  anulavel r = false ->
  forall s s', In s' (restos r s) -> length s' < length s.
Proof.
  induction r as [|k|a IHa b IHb|a IHa b IHb|a IHa|a IHa|a IHa|a IHa|a IHa];
    simpl; intros Hn s s' Hin; try discriminate.
  - destruct s as [|c s]; [destruct Hin|].
    destruct (pertence k c); [|destruct Hin].
    destruct Hin as [<-|[]]. simpl. lia.
  - apply in_flat_map in Hin. destruct Hin as (s1 & H1 & H2).
    pose proof (restos_comprimento _ _ _ H1).
    pose proof (restos_comprimento _ _ _ H2).
    apply andb_false_iff in Hn. destruct Hn as [Hn|Hn].
    + specialize (IHa Hn _ _ H1). lia.
    + specialize (IHb Hn _ _ H2). lia.
  - apply orb_false_iff in Hn. destruct Hn as [Ha Hb].
    apply in_app_or in Hin. destruct Hin; eauto.
  - apply in_flat_map in Hin. destruct Hin as (s1 & H1 & H2).
    specialize (IHa Hn _ _ H1).
    destruct (repetir_sufixo _ _ (restos_sufixo a) _ _ _ H2) as (m & ->).
    rewrite length_app in IHa. lia.
  - eauto.
Qed.

Lemma restos_fim r : anulavel r = false -> restos r [] = [].
Proof.
  intros Hn. destruct (restos r []) as [|s' l] eqn:E; [reflexivity|].
  assert (H : In s' (restos r [])) by (rewrite E; now left).
  apply (restos_progresso _ Hn) in H. simpl in H. lia.
Qed.

Lemma repetir_parado passo g n s :
  (forall s', In s' (passo s) -> s' = s) -> repetir passo g n s = [s].
Proof.
  intros H. destruct n as [|n]; simpl; [reflexivity|].
  rewrite flat_map_vazio.
  - now destruct g.
  - intros s1 H1. rewrite (H _ H1), Nat.ltb_irrefl. reflexivity.
Qed.

(** If no match of [r] can begin with [c], then at [c :: s] the pattern
    matches at most the empty text. *)
Lemma restos_inicia r c :
  inicia r c = false ->
  forall s s', In s' (restos r (c :: s)) -> s' = c :: s.
Proof.
  induction r as [|k|a IHa b IHb|a IHa b IHb|a IHa|a IHa|a IHa|a IHa|a IHa];
    intros Hi s s' Hin; cbn [inicia] in Hi; cbn [restos] in Hin.
  - now destruct Hin as [<-|[]].
  - rewrite Hi in Hin. destruct Hin.
  - apply orb_false_iff in Hi. destruct Hi as [Ha Hb].
    apply in_flat_map in Hin. destruct Hin as (s1 & H1 & H2).
    pose proof (IHa Ha _ _ H1) as ->.
    destruct (anulavel a) eqn:Hn.
    + simpl in Hb. eauto.
    + apply (restos_progresso _ Hn) in H1. simpl in H1. lia.
  - apply orb_false_iff in Hi. destruct Hi as [Ha Hb].
    apply in_app_or in Hin. destruct Hin; eauto.
  - rewrite repetir_parado in Hin by eauto. now destruct Hin as [<-|[]].
  - rewrite repetir_parado in Hin by eauto. now destruct Hin as [<-|[]].
  - apply in_flat_map in Hin. destruct Hin as (s1 & H1 & H2).
    pose proof (IHa Hi _ _ H1) as ->.
    rewrite repetir_parado in H2 by eauto. now destruct H2 as [<-|[]].
  - apply in_app_or in Hin. destruct Hin as [H|[<-|[]]]; eauto.
  - eauto.
Qed.

Lemma restos_nao_inicia r c s :
  anulavel r = false -> inicia r c = false -> restos r (c :: s) = [].
Proof.
  intros Hn Hi. destruct (restos r (c :: s)) as [|s' l] eqn:E; [reflexivity|].
  assert (H : In s' (restos r (c :: s))) by (rewrite E; now left).
  pose proof (restos_inicia _ _ Hi _ _ H) as ->.
  apply (restos_progresso _ Hn) in H. lia.
Qed.

(** A greedy loop over one character class runs to the end of the run of
    characters of the class. *)
Lemma repetir_classe k w suf :
  forallb (pertence k) w = true ->
  restos (Um k) suf = [] ->
  forall n, length (w ++ suf) <= n ->
  exists tl, repetir (restos (Um k)) true n (w ++ suf) = suf :: tl.
Proof.
  intros Hw Hsuf. induction w as [|c w IH]; intros n Hn.
  - destruct n as [|n]; [now exists []|].
    cbn [repetir app]. rewrite Hsuf. now exists [].
  - simpl in Hw. apply andb_true_iff in Hw. destruct Hw as [Hc Hw].
    destruct n as [|n]; simpl in Hn; [lia|].
    destruct (IH Hw n ltac:(lia)) as (tl & E).
    cbn [repetir app restos]. rewrite Hc. cbn [flat_map length].
    replace (length (w ++ suf) <? S (length (w ++ suf))) with true
      by (symmetry; apply Nat.ltb_lt; lia).
    cbn [restos] in E. rewrite E. simpl. eauto.
Qed.

Lemma estrela_classe k w suf :
  forallb (pertence k) w = true ->
  restos (Um k) suf = [] ->
  exists tl, restos (Estrela (Um k)) (w ++ suf) = suf :: tl.
Proof.
  intros Hw Hsuf. cbn [restos]. now apply repetir_classe.
Qed.

End ReFacts.
Import ReFacts.

(** * Properties of the master pattern *)

(** [casar_em] reports the first match of the alternation of the groups. *)
Lemma casar_em_alternativas tab s :
  hd_error (restos (alternativas tab) s)
  = option_map snd (casar_em tab s).
Proof.
  induction tab as [|[nome r] tab IH]; simpl.
  - destruct s as [|c s]; reflexivity.
  - destruct (restos r s) as [|s' l]; simpl; [exact IH|reflexivity].
Qed.

Lemma casar_em_escolhe pre nome r post m s' tl :
  Forall (fun p => restos (snd p) (m ++ s') = []) pre ->
  restos r (m ++ s') = s' :: tl ->
  casar_em (pre ++ (nome, r) :: post) (m ++ s') = Some (nome, m, s').
Proof.
  intros Hpre Hr. induction Hpre as [|[nome0 r0] pre H0 _ IH]; simpl.
  - rewrite Hr, firstn_exato. reflexivity.
  - simpl in H0. rewrite H0. exact IH.
Qed.

Lemma casar_em_origem tab s tipo texto resto :
  casar_em tab s = Some (tipo, texto, resto) ->
  exists r, In (tipo, r) tab /\ In resto (restos r s)
            /\ texto = firstn (length s - length resto) s.
Proof.
  induction tab as [|[nome r] tab IH]; simpl; [discriminate|].
  destruct (restos r s) as [|s' l] eqn:E.
  - intros H. destruct (IH H) as (r' & ? & ? & ?). exists r'. auto.
  - intros H. injection H as <- <- <-. exists r. rewrite E. simpl. auto.
Qed.

Lemma casar_em_existe tab s nome r :
  In (nome, r) tab -> restos r s <> [] -> casar_em tab s <> None.
Proof.
  induction tab as [|[nome0 r0] tab IH]; simpl; [tauto|].
  intros [H|H] Hr.
  - injection H as -> ->. destruct (restos r s); [congruence|discriminate].
  - destruct (restos r0 s); [auto|discriminate].
Qed.

Lemma especificacao_nao_anulavel :
  forallb (fun p => negb (anulavel (snd p))) especificacao = true.
Proof. vm_compute. reflexivity. Qed.

(** A match of the master pattern splits the input into the matched text,
    which is not empty, and the rest. *)
Lemma regex_mestre_partes s tipo texto resto :
  regex_mestre s = Some (tipo, texto, resto) ->
  s = texto ++ resto /\ length resto < length s.
Proof.
  intros H. apply casar_em_origem in H. destruct H as (r & Hin & Hr & ->).
  pose proof especificacao_nao_anulavel as Hn.
  rewrite forallb_forall in Hn. specialize (Hn _ Hin). simpl in Hn.
  apply negb_true_iff in Hn.
  pose proof (restos_progresso _ Hn _ _ Hr).
  destruct (restos_sufixo _ _ _ Hr) as (m & ->).
  rewrite firstn_exato. auto.
Qed.

(** Some alternative matches at every position before the end. *)
Lemma regex_mestre_existe c s : regex_mestre (c :: s) <> None.
Proof.
  destruct (Ascii.eqb c nl) eqn:E.
  - apply Ascii.eqb_eq in E. subst c.
    apply (casar_em_existe _ _ NOVA_LINHA (car nl)).
    + vm_compute. tauto.
    + discriminate.
  - apply (casar_em_existe _ _ INVALIDO (Um Qualquer)).
    + vm_compute. tauto.
    + simpl. rewrite E. discriminate.
Qed.

Lemma regex_mestre_fim : regex_mestre [] = None.
Proof. reflexivity. Qed.

(** So [finditer] never has to move past a character to find a match. *)
Lemma procurar_regex_mestre s : procurar s = regex_mestre s.
Proof.
  destruct s as [|c s]; [reflexivity|].
  simpl. pose proof (regex_mestre_existe c s).
  destruct (regex_mestre (c :: s)); congruence.
Qed.

(** * Properties of the loop *)

Lemma laco_passo n c s tipo texto resto :
  regex_mestre s = Some (tipo, texto, resto) ->
  laco (S n) c s =
    match snd (tratar tipo texto c) with
    | Levanta e => ([mkPasso tipo texto (Levanta e)], Erro e)
    | a => (mkPasso tipo texto a :: fst (laco n (fst (tratar tipo texto c)) resto),
            snd (laco n (fst (tratar tipo texto c)) resto))
    end.
Proof.
  intros H. cbn [laco]. rewrite procurar_regex_mestre, H.
  destruct (tratar tipo texto c) as [c' a]. cbn [fst snd].
  destruct a; try reflexivity; destruct (laco n c' resto); reflexivity.
Qed.

(** More fuel than characters is enough fuel. *)
Lemma laco_combustivel n : forall c s,
  length s < n -> snd (laco n c s) <> SemCombustivel.
Proof.
  induction n as [|n IH]; intros c s Hn; [lia|].
  destruct (regex_mestre s) as [[[tipo texto] resto]|] eqn:E.
  - rewrite (laco_passo _ _ _ _ _ _ E).
    apply regex_mestre_partes in E. destruct E as [_ Hlt].
    destruct (snd (tratar tipo texto c)); cbn [snd];
      try discriminate; apply IH; lia.
  - cbn [laco]. rewrite procurar_regex_mestre, E. discriminate.
Qed.

Lemma laco_independe n : forall m c s,
  length s < n -> length s < m -> laco n c s = laco m c s.
Proof.
  induction n as [|n IH]; intros m c s Hn Hm; [lia|].
  destruct m as [|m]; [lia|].
  destruct (regex_mestre s) as [[[tipo texto] resto]|] eqn:E.
  - rewrite !(laco_passo _ _ _ _ _ _ E).
    apply regex_mestre_partes in E. destruct E as [_ Hlt].
    rewrite (IH m) by lia. reflexivity.
  - cbn [laco]. rewrite procurar_regex_mestre, E. reflexivity.
Qed.

(** [analisar_codigo] always returns a list or raises. *)
Lemma analisar_codigo_definido codigo : analisar_codigo codigo <> Indefinido.
Proof.
  unfold analisar_codigo, analisar, analisar_de.
  pose proof (laco_combustivel (S (length codigo)) cursor_inicial codigo
                ltac:(lia)) as H.
  destruct (laco (S (length codigo)) cursor_inicial codigo) as [ps d].
  simpl in H. destruct d; congruence.
Qed.

(** The run from a cursor, one match at a time. *)
Lemma analisar_de_passo c s tipo texto resto :
  regex_mestre s = Some (tipo, texto, resto) ->
  analisar_de c s =
    match snd (tratar tipo texto c) with
    | Levanta e => ([mkPasso tipo texto (Levanta e)], Erro e)
    | a => (mkPasso tipo texto a
              :: fst (analisar_de (fst (tratar tipo texto c)) resto),
            snd (analisar_de (fst (tratar tipo texto c)) resto))
    end.
Proof.
  intros H. unfold analisar_de. rewrite (laco_passo _ _ _ _ _ _ H).
  apply regex_mestre_partes in H. destruct H as [_ Hlt].
  rewrite (laco_independe (length s) (S (length resto))) by lia.
  reflexivity.
Qed.

Lemma analisar_de_fim c : analisar_de c [] = ([], Fim).
Proof. reflexivity. Qed.

(** * [_avancar] *)

Lemma split_sem_sep sep t : ~ In sep t -> split sep t = [t].
Proof.
  induction t as [|c t IH]; intros H; simpl; [reflexivity|].
  destruct (Ascii.eqb c sep) eqn:E.
  - apply Ascii.eqb_eq in E. subst c. exfalso. apply H. now left.
  - rewrite IH; [reflexivity|]. intros Hin. apply H. now right.
Qed.

Lemma split_nao_vazio sep t : split sep t <> [].
Proof.
  destruct t as [|c t]; simpl; [discriminate|].
  destruct (Ascii.eqb c sep); [discriminate|].
  destruct (split sep t); discriminate.
Qed.

Lemma split_comprimento sep t :
  length (split sep t) = S (count_occ ascii_dec t sep).
Proof.
  induction t as [|c t IH]; simpl; [reflexivity|].
  destruct (Ascii.eqb c sep) eqn:E.
  - apply Ascii.eqb_eq in E. subst c.
    destruct (ascii_dec sep sep); [|congruence]. simpl. now rewrite IH.
  - apply Ascii.eqb_neq in E.
    destruct (ascii_dec c sep); [congruence|].
    rewrite <- IH. pose proof (split_nao_vazio sep t).
    destruct (split sep t); [congruence|reflexivity].
Qed.

Lemma split_ultimo sep a b :
  last (split sep (a ++ sep :: b)) [] = last (split sep b) [].
Proof.
  induction a as [|c a IH]; simpl.
  - rewrite Ascii.eqb_refl. pose proof (split_nao_vazio sep b).
    destruct (split sep b); [congruence|reflexivity].
  - assert (Hl : 2 <= length (split sep (a ++ sep :: b))).
    { rewrite split_comprimento, count_occ_app. simpl.
      destruct (ascii_dec sep sep); [lia|congruence]. }
    destruct (Ascii.eqb c sep);
      destruct (split sep (a ++ sep :: b)) as [|l [|l' ls]];
      simpl in Hl; try lia; exact IH.
Qed.

(** C5.  [_avancar] moves the cursor over a matched text [t]: the offset
    grows by the length of [t]; when [t] has no newline the column grows by
    that length and the line stays; when [t] is [a], a newline and a last
    part [b] free of newlines, the line grows by the number of newlines of
    [t] and the column becomes the length of [b] plus 1. *)
Theorem avancar_correto (c : Cursor) (t : list ascii) :
  pos (_avancar c t) = pos c + length t
  /\ (~ In nl t ->
      linha (_avancar c t) = linha c
      /\ coluna (_avancar c t) = coluna c + length t)
  /\ (forall a b, t = a ++ nl :: b -> ~ In nl b ->
      linha (_avancar c t) = linha c + count_occ ascii_dec t nl
      /\ coluna (_avancar c t) = length b + 1).
Proof.
  unfold _avancar. split; [|split].
  - destruct (length (split nl t) =? 1); reflexivity.
  - intros H. rewrite (split_sem_sep _ _ H). simpl. auto.
  - intros a b -> Hb.
    rewrite split_comprimento, split_ultimo, (split_sem_sep _ _ Hb).
    assert (Hc : 1 <= count_occ ascii_dec (a ++ nl :: b) nl).
    { rewrite count_occ_app. simpl.
      destruct (ascii_dec nl nl); [lia|congruence]. }
    destruct (S (count_occ ascii_dec (a ++ nl :: b) nl) =? 1) eqn:E.
    + apply Nat.eqb_eq in E. lia.
    + cbn [linha coluna last]. split; [f_equal; lia|reflexivity].
Qed.

Lemma avancar_correto_witness :
  _avancar (mkCursor 7 3 4) (txt "ab" ++ nl :: txt "c" ++ nl :: txt "def")
  = mkCursor 15 5 4
  /\ _avancar (mkCursor 7 3 4) (txt "abc") = mkCursor 10 3 7.
Proof.
  pose proof (avancar_correto (mkCursor 7 3 4)
                (txt "ab" ++ nl :: txt "c" ++ nl :: txt "def")) as (Hp & _ & H).
  specialize (H (txt "ab" ++ nl :: txt "c") (txt "def") eq_refl).
  assert (Hb : ~ In nl (txt "def")).
  { intros Hin; vm_compute in Hin; intuition discriminate. }
  destruct (H Hb) as [Hl Hc].
  pose proof (avancar_correto (mkCursor 7 3 4) (txt "abc")) as (Hp' & H' & _).
  assert (Hb' : ~ In nl (txt "abc")).
  { intros Hin; vm_compute in Hin; intuition discriminate. }
  destruct (H' Hb') as [Hl' Hc'].
  split.
  - destruct (_avancar (mkCursor 7 3 4)
                (txt "ab" ++ nl :: txt "c" ++ nl :: txt "def")) as [p l k].
    simpl in Hp, Hl, Hc. subst. reflexivity.
  - destruct (_avancar (mkCursor 7 3 4) (txt "abc")) as [p l k].
    simpl in Hp', Hl', Hc'. subst. reflexivity.
Defined.

(** * Concrete runs *)

Example ex_int_x : analisar_codigo (txt "int x;" ++ [nl])
  = Lista [Token.mk PALAVRA_CHAVE (txt "int") 1 1;
           Token.mk ID (txt "x") 1 5;
           Token.mk PONTO_VIRGULA (txt ";") 1 6].
Proof. vm_compute. reflexivity. Qed.

(** C1.  On the input ["@"] the exception carries line 1 and column 2: the
    cursor is advanced over the character before the exception is built, so
    the column is the one after the offending character, which stands at
    column 1. *)
Theorem erro_invalido_apos_avanco :
  analisar (txt "@") = ([], Erro (ErroLexico.mk (txt "@") 1 2))
  /\ analisar_codigo (txt "@") = Excecao (ErroLexico.mk (txt "@") 1 2).
Proof. split; vm_compute; reflexivity. Qed.

(** C2.  Each of the nineteen two-character sequences of the operator list
    is scanned as one [OPERADOR] token, but the two three-character
    sequences are not: ["<<="] and [">>="] come out as the two-character
    operator followed by ["="], because ["<<"] and [">>"] stand before them
    in the alternation. *)
Theorem operadores_multicaractere :
  Forall (fun s => analisar_codigo (txt s)
                   = Lista [Token.mk OPERADOR (txt s) 1 1])
         [ "++"; "--"; "=="; "!="; ">="; "<="; "->"; "<<"; ">>"; "&&"; "||";
           "+="; "-="; "*="; "/="; "%="; "&="; "|="; "^=" ]%string
  /\ analisar_codigo (txt "<<=")
     = Lista [Token.mk OPERADOR (txt "<<") 1 1; Token.mk OPERADOR (txt "=") 1 3]
  /\ analisar_codigo (txt ">>=")
     = Lista [Token.mk OPERADOR (txt ">>") 1 1; Token.mk OPERADOR (txt "=") 1 3].
Proof.
  split; [|split]; [|vm_compute; reflexivity..].
  repeat constructor; vm_compute; reflexivity.
Qed.

(** C4.  The whitespace between [#] and the directive name is matched by
    [\s], which accepts a newline: on [#], newline, [define X] the scanner
    yields one [PREPROCESSADOR] token whose text spans both lines. *)
Theorem preprocessador_com_nova_linha :
  analisar_codigo ("#"%char :: nl :: txt "define X")
  = Lista [Token.mk PREPROCESSADOR ("#"%char :: nl :: txt "define X") 1 1]
  /\ In nl ("#"%char :: nl :: txt "define X").
Proof. split; [vm_compute; reflexivity|right; now left]. Qed.

(** C6.  ["=="] is scanned as one [OPERADOR] token with text ["=="] and
    ["="] as one [OPERADOR] token with text ["="]. *)
Theorem igual_igual_e_igual :
  analisar_codigo (txt "==") = Lista [Token.mk OPERADOR (txt "==") 1 1]
  /\ analisar_codigo (txt "=") = Lista [Token.mk OPERADOR (txt "=") 1 1].
Proof. split; vm_compute; reflexivity. Qed.

(** C8.  ["3.14f"] is scanned as one [FLOAT] token, ["42UL"] as one
    [INTEIRO] token and ["3."] as one [FLOAT] token. *)
Theorem literais_numericos :
  analisar_codigo (txt "3.14f") = Lista [Token.mk FLOAT (txt "3.14f") 1 1]
  /\ analisar_codigo (txt "42UL") = Lista [Token.mk INTEIRO (txt "42UL") 1 1]
  /\ analisar_codigo (txt "3.") = Lista [Token.mk FLOAT (txt "3.") 1 1].
Proof. repeat split; vm_compute; reflexivity. Qed.

(** * Identifiers *)

Lemma antes_de_ID :
  exists post,
    especificacao
    = firstn 9 especificacao
      ++ (ID, (Um (Conjunto letras) >> Estrela (Um (Conjunto letras_digitos)))%re)
      :: post.
Proof. eexists. reflexivity. Qed.

Lemma inicial_nao_inicia c :
  negb (letra c || sublinhado c)
  || forallb (fun p => negb (anulavel (snd p)) && negb (inicia (snd p) c))
             (firstn 9 especificacao) = true.
Proof. revert c. por_caractere. Qed.

Lemma inicial_pertence c :
  negb (letra c || sublinhado c) || pertence (Conjunto letras) c = true.
Proof. revert c. por_caractere. Qed.

Lemma continuacao_pertence c :
  Bool.eqb (pertence (Conjunto letras_digitos) c)
           (letra c || digito c || sublinhado c) = true.
Proof. revert c. por_caractere. Qed.

(** Where an identifier stands, and ends, the master pattern matches it
    whole with the group [ID]. *)
Lemma regex_mestre_identificador w suf :
  identificador w = true -> segue_identificador suf = false ->
  regex_mestre (w ++ suf) = Some (ID, w, suf).
Proof.
  intros Hw Hsuf. destruct w as [|c w]; [discriminate|].
  simpl in Hw. apply andb_true_iff in Hw. destruct Hw as [Hc Hw].
  unfold regex_mestre. destruct antes_de_ID as (post & ->).
  assert (Hk : forallb (pertence (Conjunto letras_digitos)) w = true).
  { rewrite forallb_forall in Hw |- *. intros d Hd.
    pose proof (continuacao_pertence d) as E. apply Bool.eqb_prop in E.
    rewrite E. auto. }
  assert (Hs : restos (Um (Conjunto letras_digitos)) suf = []).
  { destruct suf as [|d suf]; [reflexivity|]. cbn [restos].
    pose proof (continuacao_pertence d) as E. apply Bool.eqb_prop in E.
    simpl in Hsuf. now rewrite E, Hsuf. }
  destruct (estrela_classe _ _ _ Hk Hs) as (tl & E).
  apply (casar_em_escolhe _ ID _ post (c :: w) suf (tl ++ [])).
  - pose proof (inicial_nao_inicia c) as H. rewrite Hc in H.
    cbn [negb orb] in H. rewrite forallb_forall in H. apply Forall_forall. intros p Hp.
    specialize (H p Hp). apply andb_true_iff in H. destruct H as [Ha Hi].
    apply negb_true_iff in Ha, Hi.
    change ((c :: w) ++ suf) with (c :: w ++ suf).
    now apply restos_nao_inicia.
  - change ((c :: w) ++ suf) with (c :: w ++ suf). cbn [restos].
    pose proof (inicial_pertence c) as H. rewrite Hc in H.
    cbn [negb orb] in H. rewrite H. cbn [flat_map]. cbn [restos] in E.
    rewrite E. reflexivity.
Qed.

Lemma repetir_classe_inv k g n : forall s s',
  In s' (repetir (restos (Um k)) g n s) ->
  exists w, s = w ++ s' /\ forallb (pertence k) w = true.
Proof.
  induction n as [|n IH]; intros s s' Hin; cbn [repetir] in Hin.
  - destruct Hin as [<-|[]]. now exists [].
  - assert (Hmais : In s' (flat_map
                (fun s1 => if length s1 <? length s
                           then repetir (restos (Um k)) g n s1 else [])
                (restos (Um k) s))
              -> exists w, s = w ++ s' /\ forallb (pertence k) w = true).
    { intros H. apply in_flat_map in H. destruct H as (s1 & H1 & H2).
      destruct (length s1 <? length s); [|destruct H2].
      destruct s as [|c u]; [destruct H1|]. cbn [restos] in H1.
      destruct (pertence k c) eqn:Ec; [|destruct H1].
      destruct H1 as [<-|[]]. destruct (IH _ _ H2) as (w & -> & Hw).
      exists (c :: w). simpl. now rewrite Ec, Hw. }
    destruct g.
    + apply in_app_or in Hin. destruct Hin as [H|[<-|[]]]; auto.
      now exists [].
    + destruct Hin as [<-|H]; auto. now exists [].
Qed.

Lemma letras_pertence c :
  Bool.eqb (pertence (Conjunto letras) c) (letra c || sublinhado c) = true.
Proof. revert c. por_caractere. Qed.

(** What the group [ID] matches is an identifier. *)
Lemma regex_mestre_ID s texto resto :
  regex_mestre s = Some (ID, texto, resto) -> identificador texto = true.
Proof.
  intros H. pose proof (regex_mestre_partes _ _ _ _ H) as [Hs _].
  apply casar_em_origem in H. destruct H as (r & Hin & Hr & _).
  assert (Er : r = (Um (Conjunto letras)
                    >> Estrela (Um (Conjunto letras_digitos)))%re).
  { cbn [especificacao In] in Hin.
    repeat (destruct Hin as [Hin|Hin];
            [first [discriminate Hin | now injection Hin]|]).
    destruct Hin. }
  subst r. cbn [restos] in Hr. apply in_flat_map in Hr.
  destruct Hr as (s1 & H1 & H2).
  destruct s as [|c u]; [destruct H1|].
  destruct (pertence (Conjunto letras) c) eqn:Ec; [|destruct H1].
  destruct H1 as [<-|[]].
  apply repetir_classe_inv in H2. destruct H2 as (w & -> & Hw).
  change (c :: w ++ resto) with ((c :: w) ++ resto) in Hs.
  apply app_inv_tail in Hs. subst texto. cbn [identificador].
  pose proof (letras_pertence c) as E. apply Bool.eqb_prop in E.
  rewrite <- E, Ec. cbn [andb].
  rewrite forallb_forall in Hw |- *. intros d Hd.
  pose proof (continuacao_pertence d) as E'. apply Bool.eqb_prop in E'.
  rewrite <- E'. auto.
Qed.

Lemma reservada_In w : reservada w = true <-> In w PALAVRAS_RESERVADAS.
Proof.
  unfold reservada. rewrite existsb_exists. unfold texto_eqb. split.
  - intros (x & Hx & E). destruct (list_eq_dec ascii_dec w x); [|discriminate].
    now subst.
  - intros H. exists w. split; [exact H|].
    destruct (list_eq_dec ascii_dec w w); congruence.
Qed.

(** C7.  Whatever the group [ID] matches is an identifier (a letter or
    underscore followed by letters, digits or underscores), and the token
    yielded for it has category [PALAVRA_CHAVE] when the matched text is in
    [PALAVRAS_RESERVADAS] and [ID] otherwise, with the matched text
    unchanged as its text.  Conversely, where the scanner meets an
    identifier [w] that no further identifier character follows, it matches
    [w] whole with that group; so an input that is one identifier gives
    exactly that one token. *)
Theorem identificador_classificado :
  (forall (c : Cursor) (s texto resto : list ascii),
      regex_mestre s = Some (ID, texto, resto) ->
      let tipo_token := if reservada texto then PALAVRA_CHAVE else ID in
      identificador texto = true
      /\ (tipo_token = PALAVRA_CHAVE <-> In texto PALAVRAS_RESERVADAS)
      /\ analisar_de c s
         = (mkPasso ID texto
              (Produz (Token.mk tipo_token texto (linha c) (coluna c)))
              :: fst (analisar_de (_avancar c texto) resto),
            snd (analisar_de (_avancar c texto) resto)))
  /\ (forall w : list ascii,
      identificador w = true ->
      (forall suf, segue_identificador suf = false ->
                   regex_mestre (w ++ suf) = Some (ID, w, suf))
      /\ analisar_codigo w
         = Lista [Token.mk (if reservada w then PALAVRA_CHAVE else ID) w 1 1]).
Proof.
  split.
  - intros c s texto resto H tipo_token. split; [|split].
    + exact (regex_mestre_ID _ _ _ H).
    + rewrite <- reservada_In. subst tipo_token.
      destruct (reservada texto); split; intros; congruence.
    + rewrite (analisar_de_passo _ _ _ _ _ H). reflexivity.
  - intros w Hw. split.
    + intros suf Hsuf. now apply regex_mestre_identificador.
    + pose proof (regex_mestre_identificador w [] Hw eq_refl) as Hm.
      rewrite app_nil_r in Hm. unfold analisar_codigo, analisar.
      rewrite (analisar_de_passo _ _ _ _ _ Hm). cbn [tratar snd fst].
      rewrite analisar_de_fim. reflexivity.
Qed.

Lemma identificador_classificado_witness :
  analisar_de (mkCursor 4 2 3) (txt "while(x)")
  = (mkPasso ID (txt "while")
       (Produz (Token.mk PALAVRA_CHAVE (txt "while") 2 3))
       :: fst (analisar_de (mkCursor 9 2 8) (txt "(x)")),
     snd (analisar_de (mkCursor 9 2 8) (txt "(x)")))
  /\ analisar_codigo (txt "whilex")
     = Lista [Token.mk ID (txt "whilex") 1 1].
Proof.
  destruct identificador_classificado as [H1 H2].
  destruct (H2 (txt "while") eq_refl) as [H3 _].
  destruct (H2 (txt "whilex") eq_refl) as [_ H4].
  split.
  - exact (proj2 (proj2 (H1 (mkCursor 4 2 3) (txt "while(x)") (txt "while")
                           (txt "(x)") (H3 (txt "(x)") eq_refl)))).
  - exact H4.
Defined.

(** * Unterminated string literals *)

(** One iteration of the body of a string literal steps over an escape or
    over a character that is neither a quote nor a backslash. *)
Lemma corpo_string_preserva s s' :
  In s' (restos corpo_string s) -> tem_aspas_livre s' = tem_aspas_livre s.
Proof.
  destruct s as [|c t]; [intros []|].
  unfold corpo_string. cbn [restos car pertence existsb no_item].
  intros H. apply in_app_or in H. destruct H as [H|H].
  - destruct (Ascii.eqb c barra_inv) eqn:Eb; [|destruct H].
    apply Ascii.eqb_eq in Eb. subst c. cbn [flat_map] in H.
    rewrite app_nil_r in H. destruct t as [|d t']; [destruct H|].
    destruct (negb (Ascii.eqb d nl)); [|destruct H].
    destruct H as [<-|[]]. reflexivity.
  - cbn [tem_aspas_livre].
    destruct (Ascii.eqb c aspas); [destruct H|].
    destruct (Ascii.eqb c barra_inv); [destruct H|].
    simpl in H. destruct H as [<-|[]]. reflexivity.
Qed.

Lemma repetir_preserva (P : list ascii -> Prop) passo g :
  (forall s s', P s -> In s' (passo s) -> P s') ->
  forall n s s', P s -> In s' (repetir passo g n s) -> P s'.
Proof.
  intros Hp n. induction n as [|n IH]; intros s s' Hs Hin; simpl in Hin.
  - now destruct Hin as [<-|[]].
  - assert (Hmais : In s' (flat_map
                (fun s1 => if length s1 <? length s
                           then repetir passo g n s1 else []) (passo s))
              -> P s').
    { intros H. apply in_flat_map in H. destruct H as (s1 & H1 & H2).
      destruct (length s1 <? length s); [|destruct H2]. eauto. }
    destruct g.
    + apply in_app_or in Hin. destruct Hin as [H|[<-|[]]]; auto.
    + destruct Hin as [<-|H]; auto.
Qed.

(** Without a free closing quote the pattern [STRING] has no match at an
    opening quote. *)
Lemma string_sem_fecho resto :
  tem_aspas_livre resto = false ->
  restos (car aspas >> Estrela corpo_string >> car aspas)%re (aspas :: resto)
  = [].
Proof.
  intros H. cbn [restos car pertence]. rewrite Ascii.eqb_refl.
  cbn [flat_map]. rewrite app_nil_r. apply flat_map_vazio.
  intros s' Hin.
  assert (Hs' : tem_aspas_livre s' = false).
  { refine (repetir_preserva (fun s => tem_aspas_livre s = false) _ _ _
              _ _ _ H Hin).
    intros s1 s2 H1 H2. now rewrite (corpo_string_preserva _ _ H2). }
  destruct s' as [|c t]; [reflexivity|].
  cbn [tem_aspas_livre] in Hs'.
  destruct (Ascii.eqb c aspas); [discriminate|reflexivity].
Qed.

Lemma regex_mestre_aspas_abertas resto :
  tem_aspas_livre resto = false ->
  regex_mestre (aspas :: resto) = Some (INVALIDO, [aspas], resto).
Proof.
  intros H. unfold regex_mestre.
  change especificacao with (firstn 21 especificacao ++ [(INVALIDO, Um Qualquer)]).
  apply (casar_em_escolhe _ INVALIDO _ [] [aspas] resto []); [|reflexivity].
  cbn [firstn especificacao].
  repeat (apply Forall_cons; [first [ exact (string_sem_fecho _ H)
                                    | vm_compute; reflexivity ]|]).
  constructor.
Qed.

(** C9.  An input that opens with a double quote and has no free closing
    quote after it makes the scanner raise at that quote: the exception is
    for the quote character, nothing was yielded before it, and
    [analisar_codigo] raises. *)
Theorem aspas_sem_fecho (resto : list ascii) :
  tem_aspas_livre resto = false ->
  exists e,
    analisar (aspas :: resto) = ([], Erro e)
    /\ ErroLexico.texto e = [aspas]
    /\ analisar_de cursor_inicial (aspas :: resto)
       = ([mkPasso INVALIDO [aspas] (Levanta e)], Erro e)
    /\ analisar_codigo (aspas :: resto) = Excecao e.
Proof.
  intros H. pose proof (regex_mestre_aspas_abertas _ H) as Hm.
  eexists. unfold analisar_codigo, analisar.
  rewrite (analisar_de_passo _ _ _ _ _ Hm). cbn [tratar snd fst produzidos].
  repeat split.
Qed.

Lemma aspas_sem_fecho_witness :
  exists e,
    analisar (aspas :: txt "abc" ++ barra_inv :: aspas :: txt " x;")
    = ([], Erro e)
    /\ ErroLexico.texto e = [aspas]
    /\ analisar_de cursor_inicial (aspas :: txt "abc" ++ barra_inv :: aspas :: txt " x;")
       = ([mkPasso INVALIDO [aspas] (Levanta e)], Erro e)
    /\ analisar_codigo (aspas :: txt "abc" ++ barra_inv :: aspas :: txt " x;")
       = Excecao e.
Proof.
  apply (aspas_sem_fecho (txt "abc" ++ barra_inv :: aspas :: txt " x;")).
  vm_compute. reflexivity.
Defined.

(** * A comment opener that is never closed *)

Lemma restos_lit p s :
  restos (lit p) s = if comeca_com p s then [skipn (length p) s] else [].
Proof.
  revert s. induction p as [|a p IH]; intros s; [reflexivity|].
  assert (Hcar : forall s, restos (car a) s
                           = if comeca_com [a] s then [skipn 1 s] else []).
  { intros [|b u]; [reflexivity|]. cbn [restos car pertence comeca_com].
    rewrite Ascii.eqb_sym, andb_true_r. reflexivity. }
  destruct p as [|a' p]; [apply Hcar|].
  change (lit (a :: a' :: p)) with (Seq (car a) (lit (a' :: p))).
  cbn [restos]. rewrite Hcar. destruct s as [|b u]; [reflexivity|].
  cbn [comeca_com]. rewrite andb_true_r.
  destruct (Ascii.eqb a b); [|reflexivity].
  cbn [flat_map andb skipn length]. rewrite IH, app_nil_r. reflexivity.
Qed.

Lemma ocorre_sufixo p m s :
  ocorre p (m ++ s) = false -> comeca_com p s = false.
Proof.
  induction m as [|c m IH]; intros H.
  - destruct s; simpl in H; apply orb_false_iff in H; tauto.
  - apply IH. cbn [app ocorre] in H. apply orb_false_iff in H. tauto.
Qed.

(** Without a closing ["*/"] after it, ["/*"] does not open a match of
    [COMENTARIO_ML]. *)
Lemma comentario_ml_sem_fecho resto :
  ocorre (txt "*/") resto = false ->
  restos (str "/*" >> EstrelaPreg (Um Qualquer <|> car nl) >> str "*/")%re
         ("/"%char :: "*"%char :: resto) = [].
Proof.
  intros H.
  set (corpo := (Um Qualquer <|> car nl)%re).
  change (flat_map (restos (EstrelaPreg corpo >> str "*/"))
            (restos (lit (txt "/*")) ("/"%char :: "*"%char :: resto)) = []).
  rewrite restos_lit.
  change (flat_map (restos (lit (txt "*/")))
            (repetir (restos corpo) false (length resto) resto) ++ [] = []).
  rewrite app_nil_r. apply flat_map_vazio. intros s' Hin.
  destruct (repetir_sufixo _ _ (restos_sufixo corpo) _ _ _ Hin) as (m & ->).
  rewrite restos_lit. now rewrite (ocorre_sufixo _ _ _ H).
Qed.

Lemma regex_mestre_barra_asterisco resto :
  ocorre (txt "*/") resto = false ->
  regex_mestre ("/"%char :: "*"%char :: resto)
  = Some (OP_SIMBOLO, txt "/", "*"%char :: resto).
Proof.
  intros H. unfold regex_mestre.
  change especificacao
    with (firstn 11 especificacao
          ++ nth 11 especificacao (ESPACO, Eps) :: skipn 12 especificacao).
  apply (casar_em_escolhe _ OP_SIMBOLO _ _ (txt "/") ("*"%char :: resto) []);
    [|reflexivity].
  cbn [firstn especificacao].
  repeat (apply Forall_cons; [first [ exact (comentario_ml_sem_fecho _ H)
                                    | vm_compute; reflexivity ]|]).
  constructor.
Qed.

Lemma regex_mestre_asterisco_igual resto :
  regex_mestre ("*"%char :: "="%char :: resto)
  = Some (OPERADOR, txt "*=", resto).
Proof.
  unfold regex_mestre.
  change especificacao
    with (firstn 10 especificacao
          ++ nth 10 especificacao (ESPACO, Eps) :: skipn 11 especificacao).
  apply (casar_em_escolhe _ OPERADOR _ _ (txt "*=") resto []);
    [|vm_compute; reflexivity].
  cbn [firstn especificacao].
  repeat (apply Forall_cons; [vm_compute; reflexivity|]).
  constructor.
Qed.

Lemma operador_asterisco_outro resto :
  comeca_com (txt "=") resto = false ->
  restos (snd (nth 10 especificacao (ESPACO, Eps))) ("*"%char :: resto) = [].
Proof.
  destruct resto as [|d resto]; [reflexivity|].
  destruct d as [[] [] [] [] [] [] [] []]; intros H;
    first [ vm_compute; reflexivity | vm_compute in H; discriminate H ].
Qed.

Lemma regex_mestre_asterisco_outro resto :
  comeca_com (txt "=") resto = false ->
  regex_mestre ("*"%char :: resto) = Some (OP_SIMBOLO, txt "*", resto).
Proof.
  intros H. unfold regex_mestre.
  change especificacao
    with (firstn 11 especificacao
          ++ nth 11 especificacao (ESPACO, Eps) :: skipn 12 especificacao).
  apply (casar_em_escolhe _ OP_SIMBOLO _ _ (txt "*") resto []);
    [|reflexivity].
  cbn [firstn especificacao].
  repeat (apply Forall_cons; [first [ exact (operador_asterisco_outro _ H)
                                    | vm_compute; reflexivity ]|]).
  constructor.
Qed.

Lemma ocorre_cauda p c s : ocorre p (c :: s) = false -> ocorre p s = false.
Proof. cbn [ocorre]. intros H. apply orb_false_iff in H. tauto. Qed.

(** C10, as the code has it.  An input that opens with ["/*"] and holds no
    ["*/"] is not taken for a comment and raises nothing at the opener: the
    first match yields the [OPERADOR] token ["/"] at line 1, column 1, and
    the second yields an [OPERADOR] token at column 2 whose text is ["*"],
    or ["*="] when the character after ["/*"] is ["="]; scanning then goes
    on with what follows that second token. *)
Theorem barra_asterisco_sem_fecho (resto : list ascii) :
  ocorre (txt "*/") (txt "/*" ++ resto) = false ->
  let igual := comeca_com (txt "=") resto in
  let segundo := if igual then txt "*=" else txt "*" in
  let depois := if igual then skipn 1 resto else resto in
  let c := if igual then mkCursor 3 1 4 else mkCursor 2 1 3 in
  analisar_de cursor_inicial (txt "/*" ++ resto)
  = (mkPasso OP_SIMBOLO (txt "/") (Produz (Token.mk OPERADOR (txt "/") 1 1))
       :: mkPasso (if igual then OPERADOR else OP_SIMBOLO) segundo
            (Produz (Token.mk OPERADOR segundo 1 2))
       :: fst (analisar_de c depois),
     snd (analisar_de c depois))
  /\ analisar (txt "/*" ++ resto)
     = (Token.mk OPERADOR (txt "/") 1 1
          :: Token.mk OPERADOR segundo 1 2
          :: produzidos (fst (analisar_de c depois)),
        snd (analisar_de c depois)).
Proof.
  intros H.
  assert (Hr : ocorre (txt "*/") resto = false).
  { now apply ocorre_cauda, ocorre_cauda in H. }
  pose proof (regex_mestre_barra_asterisco _ Hr) as H1.
  change (txt "/*" ++ resto) with ("/"%char :: "*"%char :: resto).
  assert (E : forall tipo2 segundo c depois,
             regex_mestre ("*"%char :: resto)
             = Some (tipo2, segundo, depois) ->
             snd (tratar tipo2 segundo (mkCursor 1 1 2))
             = Produz (Token.mk OPERADOR segundo 1 2) ->
             fst (tratar tipo2 segundo (mkCursor 1 1 2)) = c ->
             analisar_de cursor_inicial ("/"%char :: "*"%char :: resto)
             = (mkPasso OP_SIMBOLO (txt "/")
                  (Produz (Token.mk OPERADOR (txt "/") 1 1))
                  :: mkPasso tipo2 segundo
                       (Produz (Token.mk OPERADOR segundo 1 2))
                  :: fst (analisar_de c depois),
                snd (analisar_de c depois))).
  { intros tipo2 segundo c depois H2 Ha Hc.
    rewrite (analisar_de_passo _ _ _ _ _ H1).
    change (tratar OP_SIMBOLO (txt "/") cursor_inicial)
      with (mkCursor 1 1 2, Produz (Token.mk OPERADOR (txt "/") 1 1)).
    cbn [fst snd]. rewrite (analisar_de_passo _ _ _ _ _ H2), Ha, Hc.
    reflexivity. }
  destruct (comeca_com (txt "=") resto) eqn:Ei; cbv zeta.
  - destruct resto as [|d resto']; [discriminate|].
    cbn [txt list_ascii_of_string comeca_com] in Ei.
    rewrite andb_true_r in Ei. apply Ascii.eqb_eq in Ei. subst d.
    cbn [skipn].
    pose proof (E OPERADOR (txt "*=") (mkCursor 3 1 4) resto'
                  (regex_mestre_asterisco_igual resto') eq_refl eq_refl) as E'.
    split; [exact E'|]. unfold analisar. rewrite E'. reflexivity.
  - pose proof (E OP_SIMBOLO (txt "*") (mkCursor 2 1 3) resto
                  (regex_mestre_asterisco_outro _ Ei) eq_refl eq_refl) as E'.
    split; [exact E'|]. unfold analisar. rewrite E'. reflexivity.
Qed.

Lemma barra_asterisco_sem_fecho_witness :
  analisar (txt "/* int x;")
  = ([Token.mk OPERADOR (txt "/") 1 1; Token.mk OPERADOR (txt "*") 1 2;
      Token.mk PALAVRA_CHAVE (txt "int") 1 4; Token.mk ID (txt "x") 1 8;
      Token.mk PONTO_VIRGULA (txt ";") 1 9], Fim).
Proof.
  exact (proj2 (barra_asterisco_sem_fecho (txt " int x;") eq_refl)).
Defined.

(** C10, as stated, fails on ["/*="]: the input opens with ["/*"] and holds
    no ["*/"], yet the second token is ["*="], not ["*"]. *)
Lemma barra_asterisco_igual_contraexemplo :
  comeca_com (txt "/*") (txt "/*=") = true
  /\ ocorre (txt "*/") (txt "/*=") = false
  /\ analisar (txt "/*=")
     = ([Token.mk OPERADOR (txt "/") 1 1; Token.mk OPERADOR (txt "*=") 1 2],
        Fim)
  /\ ~ (exists l1 c1 l2 c2 tokens,
           fst (analisar (txt "/*="))
           = Token.mk OPERADOR (txt "/") l1 c1
               :: Token.mk OPERADOR (txt "*") l2 c2 :: tokens).
Proof.
  repeat split; try (vm_compute; reflexivity).
  intros (l1 & c1 & l2 & c2 & tokens & H). vm_compute in H. discriminate H.
Qed.

(** * Putting the source back together *)

(** The text of a yielded token is the matched text, stripped when the
    token is a directive. *)
Lemma tratar_valor tipo texto c token :
  snd (tratar tipo texto c) = Produz token ->
  Token.valor token
  = match tipo with
    | PREPROCESSADOR => strip texto
    | _ => texto
    end.
Proof.
  destruct tipo; cbn [tratar snd]; intros H;
    try discriminate H; injection H as <-; reflexivity.
Qed.

Lemma parcela_casada_tratar tipo texto c :
  parcela_casada (mkPasso tipo texto (snd (tratar tipo texto c))) = texto.
Proof. destruct tipo; reflexivity. Qed.

Lemma parcela_tratar tipo texto c :
  (tipo = PREPROCESSADOR -> strip texto = texto) ->
  parcela (mkPasso tipo texto (snd (tratar tipo texto c))) = texto.
Proof. destruct tipo; intros H; try reflexivity. exact (H eq_refl). Qed.

(** The matched texts of a run that ends without an exception, put end to
    end, are the input. *)
Lemma laco_reconstroi n : forall c s ps,
  length s < n -> laco n c s = (ps, Fim) ->
  reconstruir_casado ps = s
  /\ (Forall (fun p => grupo p = PREPROCESSADOR -> strip (casado p) = casado p)
             ps ->
      reconstruir ps = s).
Proof.
  induction n as [|n IH]; intros c s ps Hn H; [lia|].
  destruct (regex_mestre s) as [[[tipo texto] resto]|] eqn:E.
  - rewrite (laco_passo _ _ _ _ _ _ E) in H.
    apply regex_mestre_partes in E. destruct E as [-> Hlt].
    pose proof (parcela_casada_tratar tipo texto c) as Hpc.
    pose proof (parcela_tratar tipo texto c) as Hp.
    destruct (laco n (fst (tratar tipo texto c)) resto) as [ps' d'] eqn:El.
    assert (Hps : ps = mkPasso tipo texto (snd (tratar tipo texto c)) :: ps'
                  /\ d' = Fim).
    { destruct (snd (tratar tipo texto c)); cbn [fst snd] in H;
        [injection H as <- <-; auto..|discriminate H]. }
    destruct Hps as [-> ->].
    assert (Hr : length resto < n) by lia.
    destruct (IH _ _ _ Hr El) as [IH1 IH2].
    unfold reconstruir_casado, reconstruir in *. cbn [map concat].
    split.
    + now rewrite Hpc, IH1.
    + intros Hall. inversion Hall as [|p l Hp1 Hl]; subst.
      rewrite (Hp Hp1), (IH2 Hl). reflexivity.
  - cbn [laco] in H. rewrite procurar_regex_mestre, E in H.
    injection H as <-. destruct s as [|a s]; [auto|].
    now destruct (regex_mestre_existe a s).
Qed.

(** C3, as the code has it.  When scanning ends without an exception, the
    source is put back together, character for character, from the texts of
    the yielded tokens and the whitespace, newline and comment runs consumed
    in between, provided each directive enters with the text it matched:
    the text of a [PREPROCESSADOR] token is that match stripped of
    surrounding whitespace.  When no directive match has whitespace to
    strip, the texts of the tokens themselves do. *)
Theorem reconstrucao (codigo : list ascii) (ps : list Passo) :
  analisar_de cursor_inicial codigo = (ps, Fim) ->
  fst (analisar codigo) = produzidos ps
  /\ reconstruir_casado ps = codigo
  /\ (Forall (fun p => grupo p = PREPROCESSADOR -> strip (casado p) = casado p)
             ps ->
      reconstruir ps = codigo).
Proof.
  intros H. split.
  - unfold analisar. rewrite H. reflexivity.
  - exact (laco_reconstroi _ _ _ _ (Nat.lt_succ_diag_r _) H).
Qed.

Lemma reconstrucao_witness :
  reconstruir_casado
    (fst (analisar_de cursor_inicial
            (txt "#define N 10  " ++ nl :: txt "int x; /* y */")))
  = txt "#define N 10  " ++ nl :: txt "int x; /* y */".
Proof.
  exact (proj1 (proj2 (reconstrucao
    (txt "#define N 10  " ++ nl :: txt "int x; /* y */") _ eq_refl))).
Defined.

(** C3, as stated, fails on ["#a "]: scanning ends without an exception and
    yields the one token ["#a"], so the texts put together are ["#a"], one
    character short of the source. *)
Lemma reconstrucao_contraexemplo :
  analisar (txt "#a ") = ([Token.mk PREPROCESSADOR (txt "#a") 1 1], Fim)
  /\ reconstruir (fst (analisar_de cursor_inicial (txt "#a "))) = txt "#a"
  /\ reconstruir (fst (analisar_de cursor_inicial (txt "#a "))) <> txt "#a ".
Proof.
  repeat split; try (vm_compute; reflexivity).
  vm_compute. discriminate.
Qed.


(** * [_avancar], one character at a time *)

Lemma split_um sep t : length (split sep t) = 1 -> split sep t = [t].
Proof.
  rewrite split_comprimento. intros H. apply split_sem_sep.
  apply (count_occ_not_In ascii_dec). lia.
Qed.

Lemma avancar_cons c x t :
  _avancar c (x :: t) = _avancar (avancar_caractere c x) t.
Proof.
  unfold _avancar, avancar_caractere. cbn [split].
  pose proof (split_nao_vazio nl t) as Hne.
  pose proof (split_um nl t) as Hum.
  destruct (Ascii.eqb x nl).
  - cbn [length pos linha coluna].
    destruct (split nl t) as [|l [|l' ls]]; [congruence| |].
    + specialize (Hum eq_refl). injection Hum as ->.
      cbn. f_equal; lia.
    + cbn [length Nat.eqb last]. f_equal; cbn [length]; lia.
  - destruct (split nl t) as [|l [|l' ls]]; [congruence| |].
    + specialize (Hum eq_refl). injection Hum as ->.
      cbn. f_equal; lia.
    + cbn [length Nat.eqb last pos linha coluna]. f_equal; lia.
Qed.

Lemma avancar_por_caractere t : forall c,
  _avancar c t = fold_left avancar_caractere t c.
Proof.
  induction t as [|x t IH]; intros c.
  - unfold _avancar. cbn. destruct c as [p l k]. cbn. f_equal; lia.
  - rewrite avancar_cons, IH. reflexivity.
Qed.

Lemma avancar_app c a b : _avancar (_avancar c a) b = _avancar c (a ++ b).
Proof.
  rewrite !avancar_por_caractere, fold_left_app. reflexivity.
Qed.

(** X1.  Advancing over a text and then over another leaves the cursor
    where advancing over the two put together does, and advancing over the
    empty text leaves it where it is: the cursor after any sequence of
    matches depends only on the text they cover, not on where it is cut. *)
Theorem avancar_concatena (c : Cursor) (a b : list ascii) :
  _avancar (_avancar c a) b = _avancar c (a ++ b)
  /\ _avancar c [] = c
  /\ forall textos : list (list ascii),
      fold_left _avancar textos c = _avancar c (concat textos).
Proof.
  split; [apply avancar_app|].
  assert (H0 : forall k, _avancar k [] = k).
  { intros k. rewrite avancar_por_caractere. reflexivity. }
  split; [apply H0|].
  intros textos. revert c.
  induction textos as [|t textos IH]; intros c; cbn [fold_left concat].
  - symmetry. apply H0.
  - rewrite IH. apply avancar_app.
Qed.

(** * The trace of a run *)

Lemma regex_mestre_nome s tipo texto resto :
  regex_mestre s = Some (tipo, texto, resto) -> tipo <> PALAVRA_CHAVE.
Proof.
  intros H. apply casar_em_origem in H. destruct H as (r & Hin & _).
  intros ->. cbn [especificacao In] in Hin.
  repeat (destruct Hin as [Hin|Hin]; [discriminate Hin|]). destruct Hin.
Qed.

Lemma tratar_cursor tipo texto c :
  tipo <> PALAVRA_CHAVE -> fst (tratar tipo texto c) = _avancar c texto.
Proof. destruct tipo; intros H; try reflexivity. congruence. Qed.

Lemma tratar_posicao tipo texto c token :
  snd (tratar tipo texto c) = Produz token ->
  Token.linha token = linha c /\ Token.coluna token = coluna c.
Proof.
  destruct tipo; cbn [tratar snd]; intros H;
    try discriminate H; injection H as <-; auto.
Qed.

(** Every iteration recorded in a trace is a match of the master pattern
    at the point the earlier iterations have reached, handled with the
    cursor advanced over what they matched. *)
Lemma laco_rastro n : forall c s ps d,
  length s < n -> laco n c s = (ps, d) ->
  forall antes p depois, ps = antes ++ p :: depois ->
  exists resto,
    s = concat (map casado antes) ++ casado p ++ resto
    /\ regex_mestre (casado p ++ resto) = Some (grupo p, casado p, resto)
    /\ acao p
       = snd (tratar (grupo p) (casado p)
                (_avancar c (concat (map casado antes)))).
Proof.
  induction n as [|n IH]; intros c s ps d Hn H antes p depois Hps; [lia|].
  destruct (regex_mestre s) as [[[tipo texto] resto]|] eqn:E.
  - rewrite (laco_passo _ _ _ _ _ _ E) in H.
    pose proof (regex_mestre_nome _ _ _ _ E) as Hnome.
    pose proof (regex_mestre_partes _ _ _ _ E) as [Hs Hlt].
    assert (Hc0 : _avancar c [] = c).
    { rewrite avancar_por_caractere. reflexivity. }
    destruct (laco n (fst (tratar tipo texto c)) resto) as [ps' d'] eqn:El.
    assert (Hcab : exists ps'',
               ps = mkPasso tipo texto (snd (tratar tipo texto c)) :: ps''
               /\ (ps'' = [] \/ ps'' = ps' /\ d = d')).
    { destruct (snd (tratar tipo texto c)); cbn [fst snd] in H;
        injection H as <- <-; eauto. }
    destruct Hcab as (ps'' & -> & Hcauda).
    destruct antes as [|q antes].
    + cbn [app] in Hps. injection Hps as <- _.
      exists resto. cbn [map concat app casado grupo acao].
      rewrite Hc0, <- Hs. auto.
    + cbn [app] in Hps. injection Hps as <- Hps.
      destruct Hcauda as [->|[-> _]]; [now destruct antes|].
      rewrite tratar_cursor in El by exact Hnome.
      assert (Hr : length resto < n) by lia.
      destruct (IH _ _ _ _ Hr El _ _ _ Hps) as (resto' & Hs' & Hm & Ha).
      exists resto'. cbn [map concat casado].
      rewrite <- app_assoc, <- Hs', <- avancar_app. auto.
  - cbn [laco] in H. rewrite procurar_regex_mestre, E in H.
    injection H as <- _. now destruct antes.
Qed.

Lemma analisar_de_rastro c s ps d :
  analisar_de c s = (ps, d) ->
  forall antes p depois, ps = antes ++ p :: depois ->
  exists resto,
    s = concat (map casado antes) ++ casado p ++ resto
    /\ regex_mestre (casado p ++ resto) = Some (grupo p, casado p, resto)
    /\ acao p
       = snd (tratar (grupo p) (casado p)
                (_avancar c (concat (map casado antes)))).
Proof. apply laco_rastro. lia. Qed.

Lemma avancar_inicial t :
  linha (_avancar cursor_inicial t) = 1 + count_occ ascii_dec t nl
  /\ coluna (_avancar cursor_inicial t) = 1 + length (last (split nl t) []).
Proof.
  unfold _avancar. rewrite split_comprimento.
  destruct (S (count_occ ascii_dec t nl) =? 1) eqn:E.
  - apply Nat.eqb_eq in E.
    assert (H0 : count_occ ascii_dec t nl = 0) by lia.
    rewrite split_sem_sep by (apply (count_occ_not_In ascii_dec); exact H0).
    cbn. lia.
  - cbn [linha coluna cursor_inicial]. lia.
Qed.

(** X2.  Every token a run yields, whether the run ends normally or with
    an exception, carries the position of the first character of its match:
    its line is 1 plus the number of newlines in the part of the source
    before the match, and its column is 1 plus the length of what follows
    the last newline of that part. *)
Theorem posicao_dos_tokens (codigo : list ascii) (ps : list Passo)
        (d : Desfecho) :
  analisar_de cursor_inicial codigo = (ps, d) ->
  forall antes p depois token,
    ps = antes ++ p :: depois -> acao p = Produz token ->
    let consumido := concat (map casado antes) in
    (exists resto, codigo = consumido ++ casado p ++ resto)
    /\ Token.linha token = 1 + count_occ ascii_dec consumido nl
    /\ Token.coluna token = 1 + length (last (split nl consumido) []).
Proof.
  intros H antes p depois token Hps Ha consumido.
  destruct (analisar_de_rastro _ _ _ _ H _ _ _ Hps) as (resto & Hs & _ & Ht).
  rewrite Ha in Ht. symmetry in Ht. apply tratar_posicao in Ht.
  destruct Ht as [-> ->]. split; [eauto|]. apply avancar_inicial.
Qed.

Lemma posicao_dos_tokens_witness :
  Token.linha (Token.mk ID (txt "x") 2 3)
  = 1 + count_occ ascii_dec (txt "a;" ++ nl :: txt "  ") nl
  /\ Token.coluna (Token.mk ID (txt "x") 2 3)
     = 1 + length (last (split nl (txt "a;" ++ nl :: txt "  ")) []).
Proof.
  pose (codigo := txt "a;" ++ nl :: txt "  x").
  destruct (posicao_dos_tokens codigo
              (fst (analisar_de cursor_inicial codigo))
              (snd (analisar_de cursor_inicial codigo))
              eq_refl
              (firstn 4 (fst (analisar_de cursor_inicial codigo)))
              (mkPasso ID (txt "x") (Produz (Token.mk ID (txt "x") 2 3)))
              [] (Token.mk ID (txt "x") 2 3) eq_refl eq_refl)
    as (_ & Hl & Hc).
  split; [exact Hl | exact Hc].
Defined.

(** * Input that is only blank *)

Lemma repetir_nao_vazio passo g n s : repetir passo g n s <> [].
Proof.
  destruct n as [|n]; cbn [repetir]; [discriminate|].
  destruct g; [|discriminate].
  intros H. apply app_eq_nil in H. destruct H as [_ H]. discriminate H.
Qed.

Lemma regex_mestre_em_branco c s :
  em_branco c = true ->
  exists tipo texto resto,
    regex_mestre (c :: s) = Some (tipo, texto, resto)
    /\ (tipo = ESPACO \/ tipo = NOVA_LINHA).
Proof.
  intros Hc. unfold em_branco in Hc.
  destruct (Ascii.eqb c nl) eqn:En.
  - apply Ascii.eqb_eq in En. subst c.
    exists NOVA_LINHA, [nl], s. split; [|now right].
    change (nl :: s) with ([nl] ++ s).
    apply (casar_em_escolhe [_] NOVA_LINHA _ _ [nl] s []); [|reflexivity].
    repeat constructor.
  - rewrite orb_false_r in Hc.
    assert (Hk : pertence (Conjunto [Unico " "%char; Unico tab]) c = true).
    { cbn [pertence existsb no_item]. now rewrite orb_false_r. }
    unfold regex_mestre. cbn [especificacao casar_em restos]. rewrite Hk.
    cbn [flat_map]. rewrite app_nil_r.
    pose proof (repetir_nao_vazio
                  (restos (Um (Conjunto [Unico " "%char; Unico tab])))
                  true (length s) s) as Hne.
    cbn [restos] in Hne.
    destruct (repetir _ true (length s) s) as [|s' l]; [congruence|].
    eauto 6.
Qed.

Lemma laco_em_branco n : forall c s,
  length s < n -> forallb em_branco s = true ->
  produzidos (fst (laco n c s)) = [] /\ snd (laco n c s) = Fim.
Proof.
  induction n as [|n IH]; intros c s Hn Hs; [lia|].
  destruct s as [|x s]; [now split|].
  cbn [forallb] in Hs. apply andb_true_iff in Hs. destruct Hs as [Hx Hs].
  destruct (regex_mestre_em_branco x s Hx) as (tipo & texto & resto & E & Ht).
  rewrite (laco_passo _ _ _ _ _ _ E).
  pose proof (regex_mestre_partes _ _ _ _ E) as [Hp Hlt].
  assert (Hr : forallb em_branco resto = true).
  { assert (H : forallb em_branco (texto ++ resto) = true).
    { rewrite <- Hp. cbn [forallb]. now rewrite Hx, Hs. }
    rewrite forallb_app in H. apply andb_true_iff in H. tauto. }
  assert (Hl : length resto < n) by (cbn [length] in *; lia).
  destruct Ht as [-> | ->]; cbn [tratar snd fst produzidos acao];
    apply IH; assumption.
Qed.

(** X3.  A source made only of spaces, tabs and newlines yields no token
    and raises nothing. *)
Theorem so_em_branco (codigo : list ascii) :
  forallb em_branco codigo = true -> analisar_codigo codigo = Lista [].
Proof.
  intros H. unfold analisar_codigo, analisar, analisar_de.
  destruct (laco_em_branco (S (length codigo)) cursor_inicial codigo
              (Nat.lt_succ_diag_r _) H) as [Hp Hd].
  destruct (laco (S (length codigo)) cursor_inicial codigo) as [ps d].
  cbn [fst snd] in Hp, Hd. now rewrite Hp, Hd.
Qed.

Lemma so_em_branco_witness :
  analisar_codigo (txt "  " ++ nl :: tab :: nl :: txt " ") = Lista [].
Proof.
  apply so_em_branco. reflexivity.
Defined.

(** * Which characters can raise *)

Lemma flat_map_nao_vazio {A B : Type} (f : A -> list B) (l : list A) :
  l <> [] -> (forall x, f x <> []) -> flat_map f l <> [].
Proof.
  destruct l as [|x l]; [congruence|]. intros _ Hf. cbn [flat_map].
  specialize (Hf x). destruct (f x); [congruence|discriminate].
Qed.

Lemma total_correto r : total r = true -> forall s, restos r s <> [].
Proof.
  induction r as [|k|a IHa b IHb|a IHa b IHb|a IHa|a IHa|a IHa|a IHa|a IHa];
    cbn [total restos]; intros H s; try discriminate;
    try apply repetir_nao_vazio.
  - apply andb_true_iff in H. destruct H as [Ha Hb].
    apply flat_map_nao_vazio; auto.
  - apply orb_true_iff in H. destruct H as [H|H].
    + specialize (IHa H s). destruct (restos a s); [congruence|discriminate].
    + specialize (IHb H s). destruct (restos a s); [auto|discriminate].
  - apply flat_map_nao_vazio; auto. intros x. apply repetir_nao_vazio.
  - destruct (restos a s); discriminate.
  - auto.
Qed.

Lemma aceita_correto r c :
  aceita r c = true -> forall s, restos r (c :: s) <> [].
Proof.
  induction r as [|k|a IHa b IHb|a IHa b IHb|a IHa|a IHa|a IHa|a IHa|a IHa];
    cbn [aceita restos]; intros H s; try discriminate;
    try apply repetir_nao_vazio.
  - now rewrite H.
  - apply andb_true_iff in H. destruct H as [Ha Hb].
    apply flat_map_nao_vazio; auto. now apply total_correto.
  - apply orb_true_iff in H. destruct H as [H|H].
    + specialize (IHa H s).
      destruct (restos a (c :: s)); [congruence|discriminate].
    + specialize (IHb H s). destruct (restos a (c :: s)); [auto|discriminate].
  - apply flat_map_nao_vazio; auto. intros x. apply repetir_nao_vazio.
  - destruct (restos a (c :: s)); discriminate.
  - auto.
Qed.

(** When a group is chosen, the groups before it in the table did not
    match. *)
Lemma casar_em_anteriores pre nome r post s texto resto :
  casar_em (pre ++ (nome, r) :: post) s = Some (nome, texto, resto) ->
  ~ In nome (map fst pre) ->
  Forall (fun p => restos (snd p) s = []) pre.
Proof.
  induction pre as [|[nome0 r0] pre IH]; intros H Hn; [constructor|].
  cbn [app casar_em] in H. cbn [map fst In] in Hn.
  destruct (restos r0 s) as [|s' l] eqn:E.
  - constructor; [exact E|]. apply IH; tauto.
  - injection H as -> _ _. tauto.
Qed.

Lemma aceito_casa_antes c :
  negb (caractere_aceito c)
  || existsb (fun p => aceita (snd p) c) (firstn 21 especificacao) = true.
Proof. revert c. por_caractere. Qed.

(** The fallback group matches one character, and only a character with
    which no other group can begin a match. *)
Lemma regex_mestre_INVALIDO s texto resto :
  regex_mestre s = Some (INVALIDO, texto, resto) ->
  exists c, s = c :: resto /\ texto = [c] /\ c <> nl
            /\ caractere_aceito c = false.
Proof.
  intros H. pose proof (regex_mestre_partes _ _ _ _ H) as [Hs _].
  assert (Hpre : Forall (fun p => restos (snd p) s = [])
                        (firstn 21 especificacao)).
  { apply (casar_em_anteriores _ INVALIDO (Um Qualquer) [] s texto resto).
    - exact H.
    - cbn. intuition discriminate. }
  apply casar_em_origem in H. destruct H as (r & Hin & Hr & _).
  assert (Er : r = Um Qualquer).
  { cbn [especificacao In] in Hin.
    repeat (destruct Hin as [Hin|Hin];
            [first [discriminate Hin | now injection Hin]|]).
    destruct Hin. }
  subst r. destruct s as [|c u]; [destruct Hr|]. cbn [restos pertence] in Hr.
  destruct (Ascii.eqb c nl) eqn:En; [destruct Hr|].
  destruct Hr as [->|[]]. exists c.
  change (c :: resto) with ([c] ++ resto) in Hs.
  apply app_inv_tail in Hs. subst texto. repeat split.
  - now apply Ascii.eqb_neq.
  - destruct (caractere_aceito c) eqn:Ea; [|reflexivity]. exfalso.
    pose proof (aceito_casa_antes c) as Hx. rewrite Ea in Hx.
    cbn [negb orb] in Hx. apply existsb_exists in Hx.
    destruct Hx as (p & Hp & Hac). rewrite Forall_forall in Hpre.
    exact (aceita_correto _ _ Hac resto (Hpre p Hp)).
Qed.

Lemma laco_erro n : forall c s ps e,
  laco n c s = (ps, Erro e) ->
  exists antes p, ps = antes ++ [p] /\ acao p = Levanta e.
Proof.
  induction n as [|n IH]; intros c s ps e H; [discriminate H|].
  destruct (regex_mestre s) as [[[tipo texto] resto]|] eqn:E.
  - rewrite (laco_passo _ _ _ _ _ _ E) in H.
    destruct (laco n (fst (tratar tipo texto c)) resto) as [ps' d'] eqn:El.
    destruct (snd (tratar tipo texto c)) as [|token|e']; cbn [fst snd] in H.
    + injection H as <- ->. destruct (IH _ _ _ _ El) as (antes & p & -> & Hp).
      exists (mkPasso tipo texto Continua :: antes), p. auto.
    + injection H as <- ->. destruct (IH _ _ _ _ El) as (antes & p & -> & Hp).
      exists (mkPasso tipo texto (Produz token) :: antes), p. auto.
    + injection H as <- <-. exists [], (mkPasso tipo texto (Levanta e')). auto.
  - cbn [laco] in H. rewrite procurar_regex_mestre, E in H. discriminate H.
Qed.

Lemma tratar_levanta tipo texto c e :
  snd (tratar tipo texto c) = Levanta e ->
  tipo = INVALIDO /\ ErroLexico.texto e = texto.
Proof.
  destruct tipo; cbn [tratar snd]; intros H; try discriminate H.
  injection H as <-. auto.
Qed.

(** X4.  When scanning raises, the exception is for one character of the
    source, reached after matches that cover everything before it.  That
    character is no space, tab, newline, letter, digit or underscore, none
    of the operator symbols [+ - * / % & | ^ ~ ! < > = ? :] and none of the
    punctuators [; , ( ) { } [ ] .]: such characters never raise. *)
Theorem erro_so_em_caractere_nao_aceito (codigo : list ascii)
        (ps : list Passo) (e : ErroLexico.t) :
  analisar_de cursor_inicial codigo = (ps, Erro e) ->
  exists antes c resto,
    ps = antes ++ [mkPasso INVALIDO [c] (Levanta e)]
    /\ codigo = concat (map casado antes) ++ c :: resto
    /\ ErroLexico.texto e = [c]
    /\ c <> nl
    /\ caractere_aceito c = false.
Proof.
  intros H.
  destruct (laco_erro _ _ _ _ _ H) as (antes & p & Hps & Hp).
  destruct (analisar_de_rastro _ _ _ _ H _ _ _ Hps) as (resto & Hs & Hm & Ha).
  rewrite Hp in Ha. symmetry in Ha. apply tratar_levanta in Ha.
  destruct Ha as [Hg Ht]. rewrite Hg in Hm.
  apply regex_mestre_INVALIDO in Hm.
  destruct Hm as (c & Hc & Hcas & Hnl & Hac).
  exists antes, c, resto. destruct p as [g t a].
  cbn [grupo casado acao] in *. subst. repeat split; auto.
Qed.

Lemma erro_so_em_caractere_nao_aceito_witness :
  exists antes c resto,
    fst (analisar_de cursor_inicial (txt "x = $y;"))
    = antes ++ [mkPasso INVALIDO [c]
                  (Levanta (ErroLexico.mk (txt "$") 1 6))]
    /\ txt "x = $y;" = concat (map casado antes) ++ c :: resto
    /\ ErroLexico.texto (ErroLexico.mk (txt "$") 1 6) = [c]
    /\ c <> nl
    /\ caractere_aceito c = false.
Proof.
  exact (erro_so_em_caractere_nao_aceito (txt "x = $y;") _
           (ErroLexico.mk (txt "$") 1 6) eq_refl).
Defined.

(** * What the output holds *)

Lemma produzidos_In ps token :
  In token (produzidos ps) -> exists p, In p ps /\ acao p = Produz token.
Proof.
  induction ps as [|p ps IH]; cbn [produzidos]; [intros []|].
  destruct (acao p) as [|token'|e] eqn:E.
  - intros H. destruct (IH H) as (q & Hq & Ha). exists q. split; [now right|auto].
  - intros [<-|H].
    + exists p. split; [now left|exact E].
    + destruct (IH H) as (q & Hq & Ha). exists q. split; [now right|auto].
  - intros H. destruct (IH H) as (q & Hq & Ha). exists q. split; [now right|auto].
Qed.

Lemma lstrip_final l x :
  eh_espaco x = false -> exists l', lstrip (l ++ [x]) = l' ++ [x].
Proof.
  intros Hx. induction l as [|c l IH]; cbn [app lstrip].
  - rewrite Hx. now exists [].
  - destruct (eh_espaco c); [exact IH|]. now exists (c :: l).
Qed.

Lemma strip_cardinal t : exists t', strip ("#"%char :: t) = "#"%char :: t'.
Proof.
  unfold strip, rstrip. cbn [lstrip].
  change (eh_espaco "#") with false. cbn [rev].
  destruct (lstrip_final (rev t) "#"%char eq_refl) as (l' & ->).
  rewrite rev_app_distr. cbn [rev app]. eauto.
Qed.

(** A match of the group [PREPROCESSADOR] begins with [#]. *)
Lemma regex_mestre_PREPROCESSADOR s texto resto :
  regex_mestre s = Some (PREPROCESSADOR, texto, resto) ->
  exists t, texto = "#"%char :: t.
Proof.
  intros H. pose proof (regex_mestre_partes _ _ _ _ H) as [Hs Hlt].
  apply casar_em_origem in H. destruct H as (r & Hin & Hr & _).
  cbn [especificacao In] in Hin.
  repeat (destruct Hin as [Hin|Hin];
          [first [discriminate Hin | injection Hin as <-]|]);
    [|destruct Hin].
  cbn [restos car] in Hr. apply in_flat_map in Hr.
  destruct Hr as (s1 & H1 & _).
  destruct s as [|c u]; [destruct H1|]. cbn [pertence] in H1.
  destruct (Ascii.eqb c "#") eqn:E; [|destruct H1].
  apply Ascii.eqb_eq in E. subst c.
  destruct texto as [|x t].
  - cbn [app] in Hs. subst resto. cbn [length] in Hlt. lia.
  - cbn [app] in Hs. injection Hs as <- _. eauto.
Qed.

(** X5.  Every token of the output has one of the seventeen token
    categories (never that of a blank, a newline, a comment, the group of
    one-character operators or the fallback) and a text that is not empty;
    the text of a [PREPROCESSADOR] token begins with [#]. *)
Theorem saida_bem_formada (c : Cursor) (codigo : list ascii)
        (ps : list Passo) (d : Desfecho) :
  analisar_de c codigo = (ps, d) ->
  Forall (fun token =>
            categoria_de_saida (Token.tipo token) = true
            /\ Token.valor token <> []
            /\ (Token.tipo token = PREPROCESSADOR ->
                hd_error (Token.valor token) = Some "#"%char))
         (produzidos ps).
Proof.
  intros H. apply Forall_forall. intros token Hin.
  apply produzidos_In in Hin. destruct Hin as (p & Hp & Ha).
  apply in_split in Hp. destruct Hp as (antes & depois & Hps).
  destruct (analisar_de_rastro _ _ _ _ H _ _ _ Hps) as (resto & _ & Hm & Ht).
  rewrite Ha in Ht. symmetry in Ht.
  pose proof (regex_mestre_partes _ _ _ _ Hm) as [_ Hlt].
  assert (Hne : casado p <> []).
  { intros E. rewrite E in Hlt. cbn [app] in Hlt. lia. }
  destruct (grupo p) eqn:Eg; cbn [tratar snd] in Ht;
    try discriminate Ht; injection Ht as <-;
    cbn [Token.tipo Token.valor categoria_de_saida];
    try (split; [reflexivity|split; [exact Hne|discriminate]]).
  - apply regex_mestre_PREPROCESSADOR in Hm. destruct Hm as (t & ->).
    destruct (strip_cardinal t) as (t' & ->).
    split; [reflexivity|split; [discriminate|reflexivity]].
  - destruct (reservada (casado p));
      (split; [reflexivity|split; [exact Hne|discriminate]]).
Qed.

Lemma saida_bem_formada_witness :
  Forall (fun token =>
            categoria_de_saida (Token.tipo token) = true
            /\ Token.valor token <> []
            /\ (Token.tipo token = PREPROCESSADOR ->
                hd_error (Token.valor token) = Some "#"%char))
         (fst (analisar (txt "#include <a.h>  " ++ nl :: txt "x += 1; // c"))).
Proof.
  exact (saida_bem_formada cursor_inicial
           (txt "#include <a.h>  " ++ nl :: txt "x += 1; // c") _ _ eq_refl).
Defined.

(** * Comments *)

Lemma sem_nl_pertence w :
  ~ In nl w -> forallb (pertence (Complemento [Unico nl])) w = true.
Proof.
  intros H. apply forallb_forall. intros c Hc. cbn [pertence existsb no_item].
  rewrite orb_false_r. apply negb_true_iff, Ascii.eqb_neq. congruence.
Qed.

Lemma regex_mestre_comentario_sl w suf :
  ~ In nl w -> (suf = [] \/ exists r, suf = nl :: r) ->
  regex_mestre (txt "//" ++ w ++ suf) = Some (COMENTARIO_SL, txt "//" ++ w, suf).
Proof.
  intros Hw Hsuf. unfold regex_mestre.
  change especificacao
    with (firstn 3 especificacao
          ++ nth 3 especificacao (ESPACO, Eps) :: skipn 4 especificacao).
  assert (Hs : restos (Um (Complemento [Unico nl])) suf = []).
  { destruct Hsuf as [->|(r & ->)]; reflexivity. }
  destruct (estrela_classe _ _ _ (sem_nl_pertence _ Hw) Hs) as (tl & E).
  rewrite app_assoc.
  apply (casar_em_escolhe _ COMENTARIO_SL _ _ (txt "//" ++ w) suf (tl ++ [])).
  - rewrite <- app_assoc. cbn [firstn especificacao].
    repeat (apply Forall_cons; [vm_compute; reflexivity|]). constructor.
  - rewrite <- app_assoc.
    change (flat_map (restos (Estrela (Um (Complemento [Unico nl]))))
              (restos (lit (txt "//")) (txt "//" ++ w ++ suf))
            = suf :: tl ++ []).
    rewrite restos_lit.
    change (comeca_com (txt "//") (txt "//" ++ w ++ suf)) with true.
    cbn [flat_map]. change (skipn (length (txt "//")) (txt "//" ++ w ++ suf))
      with (w ++ suf).
    rewrite E. reflexivity.
Qed.

(** X6.  A line comment runs to the end of its line: [//] and what follows
    up to, not including, the newline are consumed without a token, and so
    is the newline, after which scanning resumes at column 1 of the next
    line.  A line comment that ends the source ends the run. *)
Theorem comentario_de_linha (c : Cursor) (w : list ascii) :
  ~ In nl w ->
  (forall resto,
      analisar_de c (txt "//" ++ w ++ nl :: resto)
      = (mkPasso COMENTARIO_SL (txt "//" ++ w) Continua
           :: mkPasso NOVA_LINHA [nl] Continua
           :: fst (analisar_de
                     (mkCursor (pos c + (length w + 3)) (linha c + 1) 1) resto),
         snd (analisar_de
                (mkCursor (pos c + (length w + 3)) (linha c + 1) 1) resto)))
  /\ analisar_de c (txt "//" ++ w)
     = ([mkPasso COMENTARIO_SL (txt "//" ++ w) Continua], Fim).
Proof.
  intros Hw. split.
  - intros resto.
    rewrite (analisar_de_passo _ _ _ _ _
               (regex_mestre_comentario_sl w (nl :: resto) Hw
                  (or_intror (ex_intro _ resto eq_refl)))).
    cbn [tratar fst snd].
    assert (Hm : regex_mestre (nl :: resto) = Some (NOVA_LINHA, [nl], resto)).
    { change (nl :: resto) with ([nl] ++ resto).
      apply (casar_em_escolhe [_] NOVA_LINHA _ _ [nl] resto []);
        [|reflexivity].
      repeat constructor. }
    rewrite (analisar_de_passo _ _ _ _ _ Hm). cbn [tratar fst snd].
    rewrite avancar_app.
    assert (Hc : _avancar c ((txt "//" ++ w) ++ [nl])
                 = mkCursor (pos c + (length w + 3)) (linha c + 1) 1).
    { destruct (avancar_correto c ((txt "//" ++ w) ++ [nl])) as (Hp & _ & H).
      destruct (H (txt "//" ++ w) [] eq_refl (fun x => x)) as [Hl Hk].
      rewrite count_occ_app in Hl.
      assert (H0 : count_occ ascii_dec (txt "//" ++ w) nl = 0).
      { apply (count_occ_not_In ascii_dec). intros Hin.
        apply in_app_or in Hin. destruct Hin as [Hin|Hin]; [|auto].
        vm_compute in Hin. intuition discriminate. }
      rewrite H0 in Hl. rewrite !length_app in Hp. clear H.
      set (c' := _avancar c ((txt "//" ++ w) ++ [nl])) in *. clearbody c'.
      cbn in Hp, Hl, Hk. destruct c' as [p l k].
      cbn [pos linha coluna] in *. f_equal; lia. }
    rewrite Hc. reflexivity.
  - pose proof (regex_mestre_comentario_sl w [] Hw (or_introl eq_refl)) as Hm.
    rewrite app_nil_r in Hm.
    rewrite (analisar_de_passo _ _ _ _ _ Hm). cbn [tratar fst snd].
    rewrite analisar_de_fim. reflexivity.
Qed.

Lemma comentario_de_linha_witness :
  analisar (txt "// int a; /* b" ++ nl :: txt "  x")
  = ([Token.mk ID (txt "x") 2 3], Fim).
Proof.
  assert (Hw : ~ In nl (txt " int a; /* b")).
  { intros Hin. vm_compute in Hin. intuition discriminate. }
  destruct (comentario_de_linha cursor_inicial (txt " int a; /* b") Hw)
    as [H _].
  unfold analisar.
  change (txt "// int a; /* b" ++ nl :: txt "  x")
    with (txt "//" ++ txt " int a; /* b" ++ nl :: txt "  x").
  rewrite (H (txt "  x")). reflexivity.
Defined.

Lemma corpo_comentario_passo x s : restos corpo_comentario (x :: s) = [s].
Proof.
  unfold corpo_comentario. cbn [restos car pertence].
  destruct (Ascii.eqb x nl); reflexivity.
Qed.

Lemma comeca_com_fecho x w suf :
  comeca_com (txt "*/") (x :: w) = false ->
  comeca_com (txt "*/") (x :: w ++ txt "*/" ++ suf) = false.
Proof.
  cbn [txt list_ascii_of_string comeca_com].
  destruct (Ascii.eqb "*" x); [|reflexivity]. cbn [andb].
  destruct w as [|y w]; [reflexivity|]. cbn [app]. now rewrite !andb_true_r.
Qed.

(** The lazy loop of a block comment stops at the first ["*/"]. *)
Lemma comentario_ml_primeiro_fecho suf : forall w n,
  ocorre (txt "*/") w = false ->
  length (w ++ txt "*/" ++ suf) <= n ->
  exists tl,
    flat_map (restos (lit (txt "*/")))
             (repetir (restos corpo_comentario) false n (w ++ txt "*/" ++ suf))
    = suf :: tl.
Proof.
  induction w as [|x w IH]; intros n Ho Hn.
  - destruct n as [|n]; [cbn in Hn; lia|].
    cbn [repetir app flat_map]. rewrite restos_lit.
    change (comeca_com (txt "*/") (txt "*/" ++ suf)) with true.
    cbn [app]. eauto.
  - destruct n as [|n]; [cbn in Hn; lia|].
    cbn [ocorre] in Ho. apply orb_false_iff in Ho. destruct Ho as [Hc Ho].
    cbn [app] in Hn. cbn [length] in Hn.
    destruct (IH n Ho ltac:(lia)) as (tl & E).
    change ((x :: w) ++ txt "*/" ++ suf) with (x :: w ++ txt "*/" ++ suf).
    cbn [repetir flat_map]. rewrite restos_lit, (comeca_com_fecho _ _ _ Hc).
    rewrite corpo_comentario_passo. cbn [flat_map length app].
    replace (length (w ++ txt "*/" ++ suf) <? S (length (w ++ txt "*/" ++ suf)))
      with true by (symmetry; apply Nat.ltb_lt; lia).
    rewrite app_nil_r, E. eauto.
Qed.

Lemma regex_mestre_comentario_ml w suf :
  ocorre (txt "*/") w = false ->
  regex_mestre (txt "/*" ++ w ++ txt "*/" ++ suf)
  = Some (COMENTARIO_ML, txt "/*" ++ w ++ txt "*/", suf).
Proof.
  intros Ho. unfold regex_mestre.
  change especificacao
    with (firstn 2 especificacao
          ++ nth 2 especificacao (ESPACO, Eps) :: skipn 3 especificacao).
  destruct (comentario_ml_primeiro_fecho suf w _ Ho (Nat.le_refl _))
    as (tl & E).
  replace (txt "/*" ++ w ++ txt "*/" ++ suf)
    with ((txt "/*" ++ w ++ txt "*/") ++ suf)
    by (now rewrite <- !app_assoc).
  apply (casar_em_escolhe _ COMENTARIO_ML _ _ (txt "/*" ++ w ++ txt "*/") suf
           (tl ++ [])).
  - rewrite <- !app_assoc. cbn [firstn especificacao].
    repeat (apply Forall_cons; [vm_compute; reflexivity|]). constructor.
  - rewrite <- !app_assoc.
    change (flat_map (fun s => flat_map (restos (lit (txt "*/")))
                        (repetir (restos corpo_comentario) false (length s) s))
              (restos (lit (txt "/*")) (txt "/*" ++ w ++ txt "*/" ++ suf))
            = suf :: tl ++ []).
    rewrite restos_lit.
    change (comeca_com (txt "/*") (txt "/*" ++ w ++ txt "*/" ++ suf)) with true.
    cbn [flat_map].
    change (skipn (length (txt "/*")) (txt "/*" ++ w ++ txt "*/" ++ suf))
      with (w ++ txt "*/" ++ suf).
    rewrite E. reflexivity.
Qed.

(** X7.  A block comment ends at the first ["*/"] after its opener, on
    whatever line that is: the text from ["/*"] through that ["*/"] is
    consumed without a token and scanning resumes right after it, so a
    ["/*"] inside a comment opens nothing. *)
Theorem comentario_de_bloco (c : Cursor) (w suf : list ascii) :
  ocorre (txt "*/") w = false ->
  let comentario := txt "/*" ++ w ++ txt "*/" in
  analisar_de c (txt "/*" ++ w ++ txt "*/" ++ suf)
  = (mkPasso COMENTARIO_ML comentario Continua
       :: fst (analisar_de (_avancar c comentario) suf),
     snd (analisar_de (_avancar c comentario) suf)).
Proof.
  intros Ho comentario.
  rewrite (analisar_de_passo _ _ _ _ _ (regex_mestre_comentario_ml w suf Ho)).
  reflexivity.
Qed.

Lemma comentario_de_bloco_witness :
  analisar (txt "/* a /* b" ++ nl :: txt " */ c */")
  = ([Token.mk ID (txt "c") 2 5; Token.mk OPERADOR (txt "*") 2 7;
      Token.mk OPERADOR (txt "/") 2 8], Fim).
Proof.
  pose proof (comentario_de_bloco cursor_inicial
                (txt " a /* b" ++ nl :: txt " ") (txt " c */") eq_refl) as H.
  unfold analisar.
  change (txt "/* a /* b" ++ nl :: txt " */ c */")
    with (txt "/*" ++ (txt " a /* b" ++ nl :: txt " ") ++ txt "*/"
          ++ txt " c */").
  rewrite H. reflexivity.
Defined.

(** * String literals *)

Lemma corpo_string_passo c s :
  restos corpo_string (c :: s)
  = if Ascii.eqb c barra_inv then
      match s with
      | d :: s' => if Ascii.eqb d nl then [] else [s']
      | [] => []
      end
    else if Ascii.eqb c aspas then [] else [s].
Proof.
  unfold corpo_string. cbn [restos car pertence existsb no_item].
  destruct (Ascii.eqb c barra_inv) eqn:Eb.
  - apply Ascii.eqb_eq in Eb. subst c. cbn [flat_map].
    change (Ascii.eqb barra_inv aspas) with false. cbn.
    destruct s as [|d s']; [reflexivity|].
    destruct (Ascii.eqb d nl); reflexivity.
  - cbn [flat_map app]. rewrite orb_false_r.
    destruct (Ascii.eqb c aspas); reflexivity.
Qed.

(** The greedy loop of a string literal runs to its closing quote. *)
Lemma string_corpo suf n : forall w,
  corpo_valido w = true -> length (w ++ aspas :: suf) <= n ->
  exists tl,
    repetir (restos corpo_string) true n (w ++ aspas :: suf)
    = (aspas :: suf) :: tl.
Proof.
  induction n as [|n IH]; intros w Hw Hn.
  - rewrite length_app in Hn. cbn in Hn. lia.
  - destruct w as [|c t].
    + cbn [app repetir]. rewrite corpo_string_passo.
      change (Ascii.eqb aspas barra_inv) with false.
      rewrite Ascii.eqb_refl. cbn. eauto.
    + cbn [corpo_valido] in Hw. cbn [app length] in Hn.
      destruct (Ascii.eqb c aspas) eqn:Ea; [discriminate|].
      change ((c :: t) ++ aspas :: suf) with (c :: t ++ aspas :: suf).
      cbn [repetir]. rewrite corpo_string_passo, Ea.
      destruct (Ascii.eqb c barra_inv).
      * destruct t as [|d t']; [discriminate|].
        apply andb_true_iff in Hw. destruct Hw as [Hd Hw].
        apply negb_true_iff in Hd. cbn [app]. rewrite Hd.
        cbn [app length] in Hn.
        destruct (IH t' Hw ltac:(lia)) as (tl & E).
        cbn [flat_map length].
        replace (length (t' ++ aspas :: suf)
                 <? S (S (length (t' ++ aspas :: suf))))
          with true by (symmetry; apply Nat.ltb_lt; lia).
        rewrite E. cbn. eauto.
      * destruct (IH t Hw ltac:(lia)) as (tl & E).
        cbn [flat_map length].
        replace (length (t ++ aspas :: suf) <? S (length (t ++ aspas :: suf)))
          with true by (symmetry; apply Nat.ltb_lt; lia).
        rewrite E. cbn. eauto.
Qed.

Lemma regex_mestre_string w suf :
  corpo_valido w = true ->
  regex_mestre (aspas :: w ++ aspas :: suf)
  = Some (STRING, aspas :: w ++ [aspas], suf).
Proof.
  intros Hw. unfold regex_mestre.
  change especificacao
    with (firstn 5 especificacao
          ++ nth 5 especificacao (ESPACO, Eps) :: skipn 6 especificacao).
  destruct (string_corpo suf _ w Hw (Nat.le_refl _)) as (tl & E).
  replace (aspas :: w ++ aspas :: suf) with ((aspas :: w ++ [aspas]) ++ suf)
    by (cbn [app]; now rewrite <- app_assoc).
  apply (casar_em_escolhe _ STRING _ _ (aspas :: w ++ [aspas]) suf
           (flat_map (restos (car aspas)) tl ++ [])).
  - cbn [app]. rewrite <- app_assoc. cbn [app firstn especificacao].
    repeat (apply Forall_cons; [vm_compute; reflexivity|]). constructor.
  - cbn [app]. rewrite <- app_assoc. cbn [app].
    change (flat_map (restos (car aspas))
              (repetir (restos corpo_string) true
                 (length (w ++ aspas :: suf)) (w ++ aspas :: suf)) ++ []
            = suf :: flat_map (restos (car aspas)) tl ++ []).
    rewrite E. cbn [flat_map restos car pertence].
    rewrite Ascii.eqb_refl. reflexivity.
Qed.

(** X8.  A string literal whose inside holds only characters other than
    the quote and the backslash (newlines among them) and backslashes
    followed by a character other than the newline is scanned as one
    [STRING] token: its text runs from the opening to the closing quote,
    both included, it carries the position of the opening quote, and
    scanning resumes after the closing quote. *)
Theorem string_bem_formada (c : Cursor) (w suf : list ascii) :
  corpo_valido w = true ->
  let literal := aspas :: w ++ [aspas] in
  analisar_de c (aspas :: w ++ aspas :: suf)
  = (mkPasso STRING literal
       (Produz (Token.mk STRING literal (linha c) (coluna c)))
       :: fst (analisar_de (_avancar c literal) suf),
     snd (analisar_de (_avancar c literal) suf)).
Proof.
  intros Hw literal.
  rewrite (analisar_de_passo _ _ _ _ _ (regex_mestre_string w suf Hw)).
  reflexivity.
Qed.

Lemma string_bem_formada_witness :
  analisar (aspas :: (txt "a" ++ barra_inv :: aspas :: nl :: txt "b")
              ++ aspas :: txt ";")
  = ([Token.mk STRING
        (aspas :: (txt "a" ++ barra_inv :: aspas :: nl :: txt "b") ++ [aspas])
        1 1;
      Token.mk PONTO_VIRGULA (txt ";") 2 3], Fim).
Proof.
  pose proof (string_bem_formada cursor_inicial
                (txt "a" ++ barra_inv :: aspas :: nl :: txt "b") (txt ";")
                eq_refl) as H.
  unfold analisar. rewrite H. reflexivity.
Defined.

(** * Directives *)

Lemma restos_seq_cabeca a b s s1 l1 s2 l2 :
  restos a s = s1 :: l1 -> restos b s1 = s2 :: l2 ->
  exists l, restos (Seq a b) s = s2 :: l.
Proof.
  intros Ha Hb. cbn [restos]. rewrite Ha. cbn [flat_map]. rewrite Hb.
  cbn [app]. eauto.
Qed.

(** The first remainder of a greedy loop over a class lies after a run of
    characters of the class. *)
Lemma estrela_classe_cabeca k s :
  exists u s' l,
    restos (Estrela (Um k)) s = s' :: l
    /\ s = u ++ s' /\ forallb (pertence k) u = true.
Proof.
  cbn [restos].
  pose proof (repetir_nao_vazio (restos (Um k)) true (length s) s) as Hne.
  destruct (repetir (restos (Um k)) true (length s) s) as [|s' l] eqn:E;
    [congruence|].
  assert (Hin : In s' (repetir (restos (Um k)) true (length s) s))
    by (rewrite E; now left).
  apply repetir_classe_inv in Hin. destruct Hin as (u & Hs & Hu).
  cbn [restos] in E. exists u, s', l. rewrite <- E. auto.
Qed.

Lemma horizontal_branco ws :
  forallb horizontal ws = true -> forallb (pertence Branco) ws = true.
Proof.
  intros H. rewrite forallb_forall in H |- *. intros c Hc.
  specialize (H c Hc). unfold horizontal in H. cbn [pertence].
  apply orb_true_iff in H. destruct H as [H|H];
    apply Ascii.eqb_eq in H; subst c; reflexivity.
Qed.

Lemma inicial_nao_branco c :
  negb (letra c || sublinhado c) || negb (pertence Branco c) = true.
Proof. revert c. por_caractere. Qed.

Lemma letras_digitos_nao_nl :
  pertence (Conjunto letras_digitos) nl = false.
Proof. reflexivity. Qed.

(** After the name of a directive, the rest of its line. *)
Lemma resto_da_diretiva r suf :
  ~ In nl r -> (suf = [] \/ exists r', suf = nl :: r') ->
  exists l,
    restos (Estrela (Um (Conjunto letras_digitos))
            >> Estrela (Um (Complemento [Unico nl])))%re (r ++ suf)
    = suf :: l.
Proof.
  intros Hr Hsuf.
  destruct (estrela_classe_cabeca (Conjunto letras_digitos) (r ++ suf))
    as (u & s' & l & E & Hs & Hu).
  assert (Hs' : exists r', r = u ++ r' /\ s' = r' ++ suf).
  { apply app_eq_app in Hs. destruct Hs as (x & [[-> ->]|[-> ->]]).
    - eauto.
    - destruct x as [|a x].
      + exists []. now rewrite !app_nil_r.
      + exfalso. destruct Hsuf as [Hsuf|(r' & Hsuf)]; [discriminate Hsuf|].
        injection Hsuf as -> _. rewrite forallb_app in Hu.
        apply andb_true_iff in Hu. destruct Hu as [_ Hu].
        cbn [forallb] in Hu. rewrite letras_digitos_nao_nl in Hu.
        discriminate Hu. }
  destruct Hs' as (r' & -> & ->).
  assert (Hr' : ~ In nl r').
  { intros Hin. apply Hr. apply in_or_app. now right. }
  assert (Hsuf' : restos (Um (Complemento [Unico nl])) suf = []).
  { destruct Hsuf as [->|(x & ->)]; reflexivity. }
  destruct (estrela_classe _ _ _ (sem_nl_pertence _ Hr') Hsuf') as (tl & E').
  exact (restos_seq_cabeca _ _ _ _ _ _ _ E E').
Qed.

Lemma regex_mestre_diretiva ws c0 r suf :
  forallb horizontal ws = true ->
  letra c0 || sublinhado c0 = true ->
  ~ In nl r -> (suf = [] \/ exists r', suf = nl :: r') ->
  regex_mestre (("#"%char :: ws ++ c0 :: r) ++ suf)
  = Some (PREPROCESSADOR, "#"%char :: ws ++ c0 :: r, suf).
Proof.
  intros Hws Hc0 Hr Hsuf. unfold regex_mestre.
  change especificacao
    with (firstn 4 especificacao
          ++ nth 4 especificacao (ESPACO, Eps) :: skipn 5 especificacao).
  destruct (resto_da_diretiva r suf Hr Hsuf) as (l3 & E3).
  assert (E2 : exists l2,
             restos (Um (Conjunto letras)
                     >> Estrela (Um (Conjunto letras_digitos))
                     >> Estrela (Um (Complemento [Unico nl])))%re
                    (c0 :: r ++ suf) = suf :: l2).
  { apply (restos_seq_cabeca _ _ _ (r ++ suf) [] suf l3); [|exact E3].
    cbn [restos]. pose proof (inicial_pertence c0) as H. rewrite Hc0 in H.
    cbn [negb orb] in H. now rewrite H. }
  destruct E2 as (l2 & E2).
  assert (Hb : restos (Um Branco) (c0 :: r ++ suf) = []).
  { cbn [restos]. pose proof (inicial_nao_branco c0) as H. rewrite Hc0 in H.
    cbn [negb orb] in H. apply negb_true_iff in H. now rewrite H. }
  destruct (estrela_classe _ _ _ (horizontal_branco _ Hws) Hb) as (l1 & E1).
  destruct (restos_seq_cabeca _ _ _ _ _ _ _ E1 E2) as (l & E).
  apply (casar_em_escolhe _ PREPROCESSADOR _ _ ("#"%char :: ws ++ c0 :: r)
           suf (l ++ [])).
  - cbn [app firstn especificacao].
    repeat (apply Forall_cons; [vm_compute; reflexivity|]). constructor.
  - cbn [app]. rewrite <- app_assoc. cbn [app].
    change (flat_map
              (restos (Estrela (Um Branco) >> Um (Conjunto letras)
                       >> Estrela (Um (Conjunto letras_digitos))
                       >> Estrela (Um (Complemento [Unico nl])))%re)
              (restos (car "#") ("#"%char :: ws ++ c0 :: r ++ suf))
            = suf :: l ++ []).
    cbn [restos car pertence] in E |- *. rewrite Ascii.eqb_refl.
    cbn [flat_map]. rewrite E. reflexivity.
Qed.

Lemma lstrip_prefixo s :
  exists ini, s = ini ++ lstrip s /\ forallb eh_espaco ini = true.
Proof.
  induction s as [|c s IH]; [now exists []|]. cbn [lstrip].
  destruct (eh_espaco c) eqn:E; [|now exists []].
  destruct IH as (ini & Hs & Hi). exists (c :: ini). cbn [app forallb].
  rewrite E, Hi. split; [now f_equal|reflexivity].
Qed.

Lemma rstrip_sufixo s :
  exists fim, s = rstrip s ++ fim /\ forallb eh_espaco fim = true.
Proof.
  unfold rstrip. destruct (lstrip_prefixo (rev s)) as (ini & Hs & Hi).
  exists (rev ini). split.
  - rewrite <- rev_app_distr, <- Hs. symmetry. apply rev_involutive.
  - rewrite forallb_forall in Hi |- *. intros c Hc. apply Hi.
    now apply in_rev.
Qed.

(** X9.  A directive, written as [#], spaces or tabs if any, a name
    beginning with a letter or underscore, and the rest of its line, is
    one [PREPROCESSADOR] token that takes the whole line up to the newline
    or the end of the source, whatever the line holds (comment openers and
    quotes included).  The token carries the position of the [#], and its
    text is the line without the whitespace that ends it. *)
Theorem diretiva_ate_o_fim_da_linha (c : Cursor)
        (ws : list ascii) (c0 : ascii) (r suf : list ascii) :
  forallb horizontal ws = true ->
  letra c0 || sublinhado c0 = true ->
  ~ In nl r ->
  (suf = [] \/ exists r', suf = nl :: r') ->
  let diretiva := "#"%char :: ws ++ c0 :: r in
  analisar_de c (diretiva ++ suf)
  = (mkPasso PREPROCESSADOR diretiva
       (Produz (Token.mk PREPROCESSADOR (strip diretiva) (linha c) (coluna c)))
       :: fst (analisar_de (_avancar c diretiva) suf),
     snd (analisar_de (_avancar c diretiva) suf))
  /\ exists fim,
      diretiva = strip diretiva ++ fim /\ forallb eh_espaco fim = true.
Proof.
  intros Hws Hc0 Hr Hsuf diretiva. split.
  - rewrite (analisar_de_passo _ _ _ _ _
               (regex_mestre_diretiva ws c0 r suf Hws Hc0 Hr Hsuf)).
    reflexivity.
  - unfold strip. subst diretiva. cbn [lstrip].
    change (eh_espaco "#") with false. cbn iota. apply rstrip_sufixo.
Qed.

Lemma diretiva_ate_o_fim_da_linha_witness :
  analisar (txt "# define N 1 /* um */  " ++ nl :: txt "N")
  = ([Token.mk PREPROCESSADOR (txt "# define N 1 /* um */") 1 1;
      Token.mk ID (txt "N") 2 1], Fim).
Proof.
  assert (Hr : ~ In nl (txt "efine N 1 /* um */  ")).
  { intros Hin. vm_compute in Hin. intuition discriminate. }
  destruct (diretiva_ate_o_fim_da_linha cursor_inicial (txt " ") "d"%char
              (txt "efine N 1 /* um */  ") (nl :: txt "N")
              eq_refl eq_refl Hr (or_intror (ex_intro _ (txt "N") eq_refl)))
    as [H _].
  unfold analisar.
  change (txt "# define N 1 /* um */  " ++ nl :: txt "N")
    with (("#"%char :: txt " " ++ "d"%char :: txt "efine N 1 /* um */  ")
          ++ nl :: txt "N").
  rewrite H. reflexivity.
Defined.

(** * Integer literals *)











(** * No character is passed over *)

(** X11.  At every position before the end of the source the master
    pattern matches right there, and what it matches is not empty: the
    search for the next match never moves past a character, so the matches
    of a run lie end to end, and a run always ends, with the source used up
    or with an exception. *)
Theorem toda_posicao_casa (c : Cursor) (codigo : list ascii) :
  (codigo <> [] ->
   exists tipo texto resto,
     procurar codigo = Some (tipo, texto, resto)
     /\ codigo = texto ++ resto /\ texto <> [])
  /\ procurar [] = None
  /\ snd (analisar_de c codigo) <> SemCombustivel
  /\ analisar_codigo codigo <> Indefinido.
Proof.
  split; [|split; [reflexivity|split]].
  - intros Hne. destruct codigo as [|x s]; [congruence|].
    rewrite procurar_regex_mestre.
    pose proof (regex_mestre_existe x s) as He.
    destruct (regex_mestre (x :: s)) as [[[tipo texto] resto]|] eqn:E;
      [|congruence].
    exists tipo, texto, resto. split; [reflexivity|].
    apply regex_mestre_partes in E. destruct E as [Hs Hlt].
    split; [exact Hs|]. intros ->. rewrite Hs in Hlt. cbn [app] in Hlt. lia.
  - apply laco_combustivel. lia.
  - apply analisar_codigo_definido.
Qed.

Lemma toda_posicao_casa_witness :
  exists tipo texto resto,
    procurar (txt "@ x") = Some (tipo, texto, resto)
    /\ txt "@ x" = texto ++ resto /\ texto <> [].
Proof.
  apply (proj1 (toda_posicao_casa cursor_inicial (txt "@ x"))).
  discriminate.
Defined.
